(** * Finite element teaching codes: the 1-D DG driver and the deal.II
      Laplace example

    Shallow embedding of

    - [dg1d/deal.II/1d_scalar_legendre/main.cc]: the driver of the 1-D scalar
      discontinuous Galerkin solver (module [Main1d]);
    - the discontinuous Galerkin core it drives, whose header [dg.h] is not
      part of the sources at hand (module [DgCore], written after the
      specification);
    - the deal.II program solving the Laplace equation on the Gamma shaped
      domain (module [Laplace]).

    Numbers.  The driver and the DG core only add, multiply, divide and
    compare, so their [double]s are rationals ([Q]) and every definition
    runs.  The Laplace program calls [atan2], [sin], [pow] and square roots,
    so its [double]s are the real numbers ([R]).  Rounding is outside both
    models. *)

From Stdlib Require Import ZArith QArith Qabs Qminmax Reals Lra Lia List String.
From stdpp Require Import base option list gmap strings.
Import ListNotations.

Local Open Scope string_scope.

(** ** Uncaught C++ exceptions and the trace of a program *)

(** An exception that reaches [main] is named by its message. *)
Definition exn := string.

(** How [main] ends: a [return] with its code, or an exception no handler
    caught. *)
Inductive Outcome :=
| Exit (code : Z)
| Uncaught (e : exn).

(** A computation that leaves a trace of events of type [E] and either
    throws or yields a value. *)
Definition M (E A : Type) : Type := list E * (exn + A).

Definition ret {E A} (a : A) : M E A := ([], inr a).
Definition throw {E A} (e : exn) : M E A := ([], inl e).
Definition emit {E} (ev : E) : M E unit := ([ev], inr tt).

Definition bind {E A B} (c : M E A) (k : A -> M E B) : M E B :=
  match c with
  | (tr, inl e) => (tr, inl e)
  | (tr, inr a) => let '(tr', r) := k a in ((tr ++ tr')%list, r)
  end.

Notation "x <- c ;; k" := (bind c (fun x => k))
  (at level 100, c at next level, right associativity).
Notation "c ;;; k" := (bind c (fun _ => k))
  (at level 100, right associativity).

Definition trace {E A} (c : M E A) : list E := fst c.
Definition result {E A} (c : M E A) : exn + A := snd c.

(** [int main] seen from the operating system. *)
Definition outcome {E} (c : M E Z) : Outcome :=
  match result c with
  | inl e => Uncaught e
  | inr code => Exit code
  end.

(** ** The driver [main.cc] of the 1-D scalar DG solver *)
Module Main1d.

(** An entry of deal.II's [ParameterHandler], already read according to
    its pattern. *)
Inductive Value :=
| VInt (z : Z)
| VDouble (q : Q)
| VString (s : string).

Definition same_pattern (a b : Value) : bool :=
  match a, b with
  | VInt _, VInt _ | VDouble _, VDouble _ | VString _, VString _ => true
  | _, _ => false
  end.

(** [ParameterHandler]: the declared entries by name, each with its current
    value. *)
Abbreviation ParameterHandler := (gmap string Value).

(** A parameter file: its [set name = value] lines in order. *)
Abbreviation PrmFile := (list (string * Value)).

(** The files [main] can open, by name. *)
Abbreviation FileSystem := (gmap string PrmFile).

(** [ParameterHandler::parse_input(filename)]: the file must open, every
    line must name a declared entry and give a value of its pattern. *)
Fixpoint set_entries (lines : PrmFile) (ph : ParameterHandler)
  : exn + ParameterHandler :=
  match lines with
  | [] => inr ph
  | (name, v) :: rest =>
      match ph !! name with
      | None => inl "ExcNoSuchEntry"
      | Some old =>
          if same_pattern old v then set_entries rest (<[name := v]> ph)
          else inl "ExcValueDoesNotMatchPattern"
      end
  end.

Definition parse_input (fs : FileSystem) (filename : string)
    (ph : ParameterHandler) : exn + ParameterHandler :=
  match fs !! filename with
  | None => inl "ExcFileNotOpen"
  | Some lines => set_entries lines ph
  end.

(** [ParameterHandler::get(name)]. *)
Definition get (ph : ParameterHandler) (name : string) : exn + string :=
  match ph !! name with
  | Some (VString s) => inr s
  | Some _ => inl "ExcValueIsNotAString"
  | None => inl "ExcEntryUndeclared"
  end.

(** [struct Parameter] of [dg.h] ([Parameter] is a keyword here).
    [main.cc] names [xmin], [xmax] and [final_time]; the other fields are
    the configuration input of the specification. *)
Record Parameter_t := mkParameter {
  degree : Z;
  n_cells : Z;
  xmin : Q;
  xmax : Q;
  cfl : Q;
  final_time : Q
}.

Definition set_xmin (v : Q) (p : Parameter_t) : Parameter_t :=
  mkParameter (degree p) (n_cells p) v (xmax p) (cfl p) (final_time p).
Definition set_xmax (v : Q) (p : Parameter_t) : Parameter_t :=
  mkParameter (degree p) (n_cells p) (xmin p) v (cfl p) (final_time p).

(** What [dg.h] and [test_data.h] give to [main.cc].  Neither header is
    among the sources, so the driver is written over this interface. *)
Class Headers := {
  (** the named test cases of [test_data.h] *)
  TestCase : Type;
  (** [declare_parameters(ph)] *)
  declare_parameters : ParameterHandler -> ParameterHandler;
  (** [parse_parameters(ph, param)]; [param] is default constructed
      before the call *)
  parse_parameters : ParameterHandler -> exn + Parameter_t;
  (** [get_test_case(name)] *)
  get_test_case : string -> exn + TestCase;
  (** the members [xmin] and [xmax] that the constructor of
      [InitialCondition<1>] sets for a test case *)
  domain : TestCase -> Q * Q
}.

Section Driver.
Context `{Headers}.

(** [InitialCondition<1>]. *)
Record InitialCondition := mkInitialCondition {
  ic_test_case : TestCase;
  ic_xmin : Q;
  ic_xmax : Q
}.

Definition InitialCondition_new (tc : TestCase) : InitialCondition :=
  mkInitialCondition tc (fst (domain tc)) (snd (domain tc)).

(** [Solution<1>]. *)
Record Solution := mkSolution {
  sol_test_case : TestCase;
  sol_final_time : Q
}.

(** [ScalarProblem<1>]: what the constructor is given. *)
Record ScalarProblem := mkScalarProblem {
  param : Parameter_t;
  initial_condition : InitialCondition;
  exact_solution : Solution
}.

(** What [main] does that can be seen from outside, in order. *)
Inductive Event :=
| Cout (s : string)
| PrintParameters (ph : ParameterHandler)
| ParseInput (filename : string)
| Construct (problem : ScalarProblem)
| Run (problem : ScalarProblem).

Definition lift {A} (r : exn + A) : M Event A := ([], r).

(** [main(argc, argv)], with [argc] the length of [argv].  String escapes
    are kept as the source writes them. *)
Definition main (fs : FileSystem) (argv : list string) : M Event Z :=
  let argc := Z.of_nat (length argv) in
  let ph := declare_parameters ∅ in
  if (argc <? 2)%Z then
    emit (Cout "Specify input parameter file\n") ;;;
    emit (Cout "It should contain following parameters.\n\n") ;;;
    emit (PrintParameters ph) ;;;
    ret 0%Z
  else
    filename <- lift (match argv !! 1%nat with
                      | Some a => inr a
                      | None => inl "argv[1]"
                      end) ;;
    emit (ParseInput filename) ;;;
    ph <- lift (parse_input fs filename ph) ;;
    emit (PrintParameters ph) ;;;
    param <- lift (parse_parameters ph) ;;
    name <- lift (get ph "test case") ;;
    test_case <- lift (get_test_case name) ;;
    let initial_condition := InitialCondition_new test_case in
    let exact_solution := mkSolution test_case (final_time param) in
    let param := set_xmin (ic_xmin initial_condition) param in
    let param := set_xmax (ic_xmax initial_condition) param in
    let problem := mkScalarProblem param initial_condition exact_solution in
    emit (Construct problem) ;;;
    emit (Run problem) ;;;
    ret 0%Z.

(** The events that build the problem or step it in time. *)
Definition starts_problem (ev : Event) : bool :=
  match ev with
  | Construct _ | Run _ => true
  | _ => false
  end.

(** The events that read the configuration. *)
Definition reads_input (ev : Event) : bool :=
  match ev with
  | ParseInput _ => true
  | _ => false
  end.

(** The problems [main] constructs. *)
Definition constructed (tr : list Event) : list ScalarProblem :=
  omap (fun ev => match ev with Construct p => Some p | _ => None end) tr.

End Driver.

(** *** One set of headers, for running the driver *)

(** Modelled from the spec: [test_data.h] is not among the sources.  The one
    named test case is the concrete scenario of the specification, linear
    advection of a sine wave on the periodic domain [[0,1]]. *)
Inductive SpecTestCase := Sine.

(** Modelled from the spec: [declare_parameters] of [dg.h] is not among the
    sources.  It declares the configuration input of the specification:
    polynomial degree, number of elements, domain bounds, CFL number, final
    time and the named test case. *)
Definition spec_declare_parameters (ph : ParameterHandler)
  : ParameterHandler :=
  <["degree" := VInt 1]>
  (<["ncells" := VInt 100]>
  (<["xmin" := VDouble 0]>
  (<["xmax" := VDouble 1]>
  (<["cfl" := VDouble (1 # 10)]>
  (<["final time" := VDouble 1]>
  (<["test case" := VString "sine"]> ph)))))).

Definition get_integer (ph : ParameterHandler) (name : string) : exn + Z :=
  match ph !! name with
  | Some (VInt z) => inr z
  | Some _ => inl "ExcValueIsNotAnInteger"
  | None => inl "ExcEntryUndeclared"
  end.

Definition get_double (ph : ParameterHandler) (name : string) : exn + Q :=
  match ph !! name with
  | Some (VDouble q) => inr q
  | Some _ => inl "ExcValueIsNotADouble"
  | None => inl "ExcEntryUndeclared"
  end.

(** Modelled from the spec: [parse_parameters] of [dg.h] is not among the
    sources.  It copies the configuration input from the handler into the
    [Parameter] structure. *)
Definition spec_parse_parameters (ph : ParameterHandler)
  : exn + Parameter_t :=
  match get_integer ph "degree", get_integer ph "ncells",
        get_double ph "xmin", get_double ph "xmax",
        get_double ph "cfl", get_double ph "final time" with
  | inr d, inr n, inr a, inr b, inr c, inr t =>
      inr (mkParameter d n a b c t)
  | _, _, _, _, _, _ => inl "ExcEntryUndeclared"
  end.

(** Modelled from the spec: an unknown test-case name is a configuration
    error. *)
Definition spec_get_test_case (name : string) : exn + SpecTestCase :=
  if String.eqb name "sine" then inr Sine else inl "Unknown test case".

Definition spec_headers : Headers := {|
  TestCase := SpecTestCase;
  declare_parameters := spec_declare_parameters;
  parse_parameters := spec_parse_parameters;
  get_test_case := spec_get_test_case;
  domain := fun _ => (0, 1)%Q
|}.

(** A parameter file that asks for the domain [[-1,1]]. *)
Definition input_prm : PrmFile :=
  [("degree", VInt 2); ("ncells", VInt 20);
   ("xmin", VDouble (-1)); ("xmax", VDouble 1);
   ("cfl", VDouble (1 # 10)); ("test case", VString "sine")].

Definition disk : FileSystem := {["input.prm" := input_prm]}.

(** The bounds that the configuration input supplies: what
    [parse_parameters] reads from the parsed file. *)
Definition configured_bounds `{Headers} (fs : FileSystem)
    (filename : string) : option (Q * Q) :=
  match parse_input fs filename (declare_parameters ∅) with
  | inr ph =>
      match parse_parameters ph with
      | inr p => Some (xmin p, xmax p)
      | inl _ => None
      end
  | inl _ => None
  end.

(** The bounds of the problems [main] constructs. *)
Definition problem_bounds `{Headers} (fs : FileSystem)
    (argv : list string) : list (Q * Q) :=
  (fun p => (xmin (param p), xmax (param p)))
    <$> constructed (trace (main fs argv)).

(** A parameter file that names a test case [test_data.h] does not
    have. *)
Definition bad_prm : PrmFile := [("test case", VString "nope")].

Definition disk_bad : FileSystem := {["bad.prm" := bad_prm]}.

(** The problem that [main] constructs for [input.prm]. *)
Definition sine_problem : @ScalarProblem spec_headers :=
  @mkScalarProblem spec_headers
    (mkParameter 2 20 0 1 (1 # 10) 1)
    (@mkInitialCondition spec_headers Sine 0 1)
    (@mkSolution spec_headers Sine 1).

End Main1d.

(** ** The discontinuous Galerkin core *)
Module DgCore.

Local Open Scope Q_scope.

(** *** Data model *)

(** Modelled from the spec: the state layout of [dg.h] is not among the
    sources.  The coefficients of one conserved variable in one element,
    one per basis function, mode 0 first. *)
Abbreviation Coeffs := (list Q).

(** An element: the coefficients of each conserved variable. *)
Abbreviation Element := (list (list Q)).

(** The state vector: the elements from left to right. *)
Abbreviation State := (list (list (list Q))).

(** The coefficient count is fixed at setup and the same in all elements:
    [nvar] variables with [nmodes] coefficients each. *)
Definition shaped (nvar nmodes : nat) (u : State) : Prop :=
  Forall (fun e : Element =>
            length e = nvar /\ Forall (fun c : Coeffs => length c = nmodes) e)
         u.

(** The cell average of variable [v]: its zeroth coefficient. *)
Definition avg (v : nat) (e : Element) : Q :=
  match e !! v with
  | Some (c0 :: _) => c0
  | _ => 0
  end.

Fixpoint sumQ (l : list Q) : Q :=
  match l with
  | [] => 0
  | x :: l' => x + sumQ l'
  end.

(** The sum over the mesh of the cell averages of variable [v]. *)
Definition total (v : nat) (u : State) : Q := sumQ (avg v <$> u).

(** Modelled from the spec: the basis and quadrature of [dg.h] are not
    among the sources.  A modal basis on the reference interval [[-1,1]]:
    values and derivatives of the basis functions, the diagonal of the
    reference mass matrix, and the quadrature points with their weights. *)
Class Basis := {
  phi : nat -> Q -> Q;
  dphi : nat -> Q -> Q;
  mass : nat -> Q;
  quadrature : list (Q * Q)
}.

(** Modelled from the spec: the physics model of [dg.h] is not among the
    sources.  The physical flux of a local state, the numerical flux of the
    two states extrapolated to an interface, and the fastest wave speed of a
    state vector. *)
Class Physics := {
  flux : list Q -> list Q;
  numerical_flux : list Q -> list Q -> list Q;
  max_wave_speed : State -> Q
}.

(** Boundary closure, chosen at setup: periodic, or physical with the two
    boundary states supplied from outside. *)
Inductive Boundary :=
| Periodic
| Physical (left right : list Q).

(** Modelled from the spec: the run-time configuration of the core. *)
Record Config := mkConfig {
  dx : Q;
  boundary : Boundary;
  rk : list (Q * Q);
  limiter_on : bool;
  limiter_tol : Q;
  CFL : Q;
  T_final : Q
}.

(** The three-stage, third-order strongly-stability-preserving scheme:
    stage [s] forms [a * u_n + b * (u + dt * L u)]. *)
Definition ssprk3 : list (Q * Q) := [(0, 1); (3 # 4, 1 # 4); (1 # 3, 2 # 3)].

Section Core.
Context `{Basis} `{Physics}.
Variable cfg : Config.

(** *** Basis evaluation *)

(** The polynomial with coefficients [c], the first of them belonging to
    mode [m], at the reference point [xi]. *)
Fixpoint eval_from (m : nat) (c : Coeffs) (xi : Q) : Q :=
  match c with
  | [] => 0
  | a :: c' => a * phi m xi + eval_from (S m) c' xi
  end.

(** The local state of an element at a reference point. *)
Definition point_state (e : Element) (xi : Q) : list Q :=
  (fun c => eval_from 0 c xi) <$> e.

(** The states extrapolated to the two ends of an element. *)
Definition trace_left (e : Element) : list Q := point_state e (-1).
Definition trace_right (e : Element) : list Q := point_state e 1.

(** *** Residual *)

(** Modelled from the spec: the numerical flux at interface [j], between
    element [j-1] and element [j], for [j] from [0] to the number of
    elements.  Periodic closure wraps the neighbour index modulo the number
    of elements; physical closure puts the supplied state outside each
    end. *)
Definition interface_flux (u : State) (j : nat) : list Q :=
  let N := length u in
  match boundary cfg with
  | Periodic =>
      numerical_flux (trace_right (nth ((j + N - 1) mod N) u []))
                     (trace_left (nth (j mod N) u []))
  | Physical bl br =>
      numerical_flux
        (if Nat.eqb j 0 then bl else trace_right (nth (j - 1) u []))
        (if Nat.eqb j N then br else trace_left (nth j u []))
  end.

(** Modelled from the spec: the volume term of [dg.h] is not among the
    sources.  The integral over the element of the physical flux of
    variable [v] against the derivative of basis function [m], by
    quadrature. *)
Definition volume_integral (e : Element) (v m : nat) : Q :=
  sumQ ((fun '(xi, w) => w * nth v (flux (point_state e xi)) 0 * dphi m xi)
          <$> quadrature).

(** Modelled from the spec: the residual of mode [m] of variable [v] in
    element [i]: the volume integral minus the numerical-flux jump at the
    two boundaries, scaled by the inverse of the (diagonal) mass matrix. *)
Definition residual (u : State) (i v m : nat) : Q :=
  (volume_integral (nth i u []) v m
   - (nth v (interface_flux u (S i)) 0 * phi m 1
      - nth v (interface_flux u i) 0 * phi m (-1)))
  / (mass m * (dx cfg / 2)).

(** The flux of variable [v] through interface [j], scaled as it enters the
    cell averages on either side of it in a step of size [dt]. *)
Definition scaled_flux (u : State) (dt : Q) (v j : nat) : Q :=
  - (dt * (nth v (interface_flux u j) 0 / (mass 0 * (dx cfg / 2)))).

(** Modelled from the spec: the residual update of [dg.h] is not among
    the sources.  [u + dt * L u], coefficient by coefficient. *)
Definition euler_update (u : State) (dt : Q) : State :=
  imap (fun i e =>
          imap (fun v c => imap (fun m x => x + dt * residual u i v m) c) e)
       u.

(** Modelled from the spec: the convex combination of stage states of
    [dg.h] is not among the sources.  [a * u + b * w], coefficient by
    coefficient. *)
Definition combine (a : Q) (u : State) (b : Q) (w : State) : State :=
  zip_with (zip_with (zip_with (fun x y => a * x + b * y))) u w.

(** *** Limiter *)

(** [x < y] as a test. *)
Definition Qltb (x y : Q) : bool := negb (Qle_bool y x).

(** Modelled from the spec: the minmod function of the TVD criterion; [dg.h]
    is not among the sources.  The argument nearest to zero when all three
    have one sign, zero otherwise. *)
Definition minmod (a b c : Q) : Q :=
  if Qltb 0 a && Qltb 0 b && Qltb 0 c then Qmin a (Qmin b c)
  else if Qltb a 0 && Qltb b 0 && Qltb c 0 then Qmax a (Qmax b c)
  else 0.

(** Modelled from the spec: the limiter of [dg.h] is not among the sources.
    The slope of an element is compared with the differences to the cell
    averages [ul] and [ur] of its neighbours; when it departs from their
    minmod by more than the tolerance, the higher-order coefficients are
    replaced by the limited linear reconstruction. *)
Definition limit_coeffs (ul ur : Q) (c : Coeffs) : Coeffs :=
  match c with
  | c0 :: c1 :: rest =>
      let s := minmod c1 (c0 - ul) (ur - c0) in
      if Qle_bool (Qabs (c1 - s)) (limiter_tol cfg) then c
      else c0 :: s :: ((fun _ => 0) <$> rest)
  | _ => c
  end.

(** Modelled from the spec: the neighbour lookup of the limiter of [dg.h]
    is not among the sources.  The cell averages next to element [i], read
    from the state before limiting. *)
Definition left_average (u : State) (i v : nat) : Q :=
  let N := length u in
  match boundary cfg with
  | Periodic => avg v (nth ((i + N - 1) mod N) u [])
  | Physical bl _ => if Nat.eqb i 0 then nth v bl 0 else avg v (nth (i - 1) u [])
  end.

Definition right_average (u : State) (i v : nat) : Q :=
  let N := length u in
  match boundary cfg with
  | Periodic => avg v (nth (S i mod N) u [])
  | Physical _ br =>
      if Nat.eqb (S i) N then nth v br 0 else avg v (nth (S i) u [])
  end.

(** Modelled from the spec: the limiter pass of [dg.h] over the mesh is
    not among the sources.  Every variable of every element is limited
    against the averages of its two neighbours. *)
Definition limiter (u : State) : State :=
  imap (fun i e =>
          imap (fun v c =>
                  limit_coeffs (left_average u i v) (right_average u i v) c)
               e)
       u.

(** *** Time integration *)

(** Modelled from the spec: one Runge-Kutta stage from the stage state [u]:
    residual update, convex combination with the state [u_n] at the start of
    the step, then the limiter. *)
Definition stage (a b : Q) (u_n u : State) (dt : Q) : State :=
  let w := combine a u_n b (euler_update u dt) in
  if limiter_on cfg then limiter w else w.

(** Modelled from the spec: the Runge-Kutta step of [dg.h] is not among
    the sources.  The stages of one step, each with the state before and
    after it. *)
Fixpoint step_stages (coeffs : list (Q * Q)) (u_n u : State) (dt : Q)
  : list (State * State) :=
  match coeffs with
  | [] => []
  | (a, b) :: coeffs' =>
      let u' := stage a b u_n u dt in
      (u, u') :: step_stages coeffs' u_n u' dt
  end.

(** The state after the last stage. *)
Definition last_state (u : State) (stages : list (State * State)) : State :=
  match last stages with
  | Some (_, u') => u'
  | None => u
  end.

(** Modelled from the spec: the step size from the CFL number, the element
    width and the fastest wave of the current state, cut to land on the
    final time. *)
Definition time_step (t : Q) (u : State) : Q :=
  let dt := CFL cfg * dx cfg / max_wave_speed u in
  if Qltb (T_final cfg) (t + dt) then T_final cfg - t else dt.

(** Modelled from the spec: the time loop, at most [steps] steps long,
    until the final time is reached.  It returns every stage it went
    through, in order. *)
Fixpoint run_stages (steps : nat) (t : Q) (u : State)
  : list (State * State) :=
  match steps with
  | O => []
  | S steps' =>
      if Qltb t (T_final cfg) then
        let dt := time_step t u in
        let stages := step_stages (rk cfg) u u dt in
        (stages ++ run_stages steps' (t + dt) (last_state u stages))%list
      else []
  end.

End Core.

(** What every state of a run keeps: the number of elements, the shape,
    and the total of variable [v], that of the state [u_n] the step
    started from. *)
Definition kept (N nvar nmodes v : nat) (u_n u : State) : Prop :=
  length u = N /\ shaped nvar nmodes u /\ total v u == total v u_n.

(** *** Legendre basis and linear advection, for running the core *)

(** [(P_n x, P_(n+1) x)] by the three-term recurrence. *)
Fixpoint legendre_pair (n : nat) (x : Q) : Q * Q :=
  match n with
  | O => (1, x)
  | S m =>
      let '(p, q) := legendre_pair m x in
      (q, ((2 * inject_Z (Z.of_nat m) + 3) * x * q
           - (inject_Z (Z.of_nat m) + 1) * p)
          / (inject_Z (Z.of_nat m) + 2))
  end.

Definition legendre (n : nat) (x : Q) : Q := fst (legendre_pair n x).

(** [P_n' x], from [P_(n+1)' = P_(n-1)' + (2n+1) P_n]. *)
Fixpoint legendre_deriv_pair (n : nat) (x : Q) : Q * Q :=
  match n with
  | O => (0, 1)
  | S m =>
      let '(d, d') := legendre_deriv_pair m x in
      (d', d + (2 * inject_Z (Z.of_nat m) + 3) * legendre (S m) x)
  end.

Definition legendre_deriv (n : nat) (x : Q) : Q :=
  fst (legendre_deriv_pair n x).

(** The Legendre basis with the one-point Gauss rule. *)
Definition legendre_basis : Basis := {|
  phi := legendre;
  dphi := legendre_deriv;
  mass := fun m => 2 / (2 * inject_Z (Z.of_nat m) + 1);
  quadrature := [(0, 2)]
|}.

(** Linear advection [u_t + u_x = 0] with the upwind flux. *)
Definition linear_advection : Physics := {|
  flux := fun u => u;
  numerical_flux := fun ul _ => ul;
  max_wave_speed := fun _ => 1
|}.

Definition sample_config (bc : Boundary) : Config :=
  mkConfig (1 # 4) bc ssprk3 true 0 (1 # 10) 1.

(** Four elements, one variable, degree one. *)
Definition sample_state : State :=
  [[[1; 1 # 2]]; [[3; -2]]; [[2; 5]]; [[0; 1]]].

End DgCore.

(** ** The deal.II program for the Laplace equation on the Gamma shaped
       domain *)
Module Laplace.

Local Open Scope R_scope.

(** [Point<2>], [Tensor<1,2>] and [Vector<double>]. *)
Definition Point2 : Type := R * R.
Definition Tensor1 : Type := R * R.
Abbreviation Vector := (list R).

Definition norm (p : Point2) : R := sqrt (fst p * fst p + snd p * snd p).

Definition dot (a b : Tensor1) : R := fst a * fst b + snd a * snd b.

Fixpoint sumR (l : list R) : R :=
  match l with
  | [] => 0
  | x :: l' => x + sumR l'
  end.

(** *** The C library on real numbers *)

(** [atan2(y, x)]: the angle of the point [(x, y)], in [(-pi, pi]]. *)
Definition atan2 (y x : R) : R :=
  if Rlt_dec 0 x then atan (y / x)
  else if Rlt_dec x 0 then
         if Rle_dec 0 y then atan (y / x) + PI else atan (y / x) - PI
  else if Rlt_dec 0 y then PI / 2
  else if Rlt_dec y 0 then - (PI / 2)
  else 0.

(** [pow(x, a)] where it is a real number.  A zero base with a negative
    exponent gives infinity and a negative base with a fractional exponent
    gives no number: both are [None]; negative bases are not needed. *)
Definition pow (x a : R) : option R :=
  if Rlt_dec 0 x then Some (Rpower x a)
  else if Rlt_dec x 0 then None
  else if Rlt_dec 0 a then Some 0
  else if Rlt_dec a 0 then None
  else Some 1.

Definition M_PI : R := PI.

(** *** [ExactSolution<2>] *)

(** deal.II's [Function<2>]: [None] where the C++ arithmetic leaves the
    finite numbers. *)
Record Function := mkFunction {
  value : Point2 -> option R;
  gradient : Point2 -> option Tensor1
}.

Definition ExactSolution_value (p : Point2) : option R :=
  let r := norm p in
  let theta := atan2 (snd p) (fst p) in
  let theta := if Rlt_dec theta 0 then theta + 2 * M_PI else theta in
  w ← pow r (2 / 3);
  Some (w * sin (2 * theta / 3)).

Definition ExactSolution_gradient (p : Point2) : option Tensor1 :=
  let r := norm p in
  let theta := atan2 (snd p) (fst p) in
  let theta := if Rlt_dec theta 0 then theta + 2 * M_PI else theta in
  w ← pow r (- 4 / 3);
  let a := (2 / 3) * w in
  Some (a * (- snd p * cos (2 * theta / 3) + fst p * sin (2 * theta / 3)),
        a * (fst p * cos (2 * theta / 3) + snd p * sin (2 * theta / 3))).

Definition ExactSolution : Function :=
  mkFunction ExactSolution_value ExactSolution_gradient.

(** The angle that [value] and [gradient] use: [atan2] moved up by a full
    turn where it is negative. *)
Definition normalized_angle (p : Point2) : R :=
  let theta := atan2 (snd p) (fst p) in
  if Rlt_dec theta 0 then theta + 2 * M_PI else theta.

(** The exact solution [r^(2/3) sin(2 theta / 3)] as a real function, and
    its gradient away from the corner. *)
Definition exact (p : Point2) : R :=
  (if Rlt_dec 0 (norm p) then Rpower (norm p) (2 / 3) else 0)
  * sin (2 * normalized_angle p / 3).

Definition exact_gradient (p : Point2) : Tensor1 :=
  let theta := normalized_angle p in
  let a := (2 / 3) * Rpower (norm p) (- 4 / 3) in
  (a * (- snd p * cos (2 * theta / 3) + fst p * sin (2 * theta / 3)),
   a * (fst p * cos (2 * theta / 3) + snd p * sin (2 * theta / 3))).

(** *** The parts of deal.II the program uses *)

(** An active cell: its vertices. *)
Abbreviation Cell := (list Point2).

Record Triangulation := mkTriangulation {
  active_cells : list Cell;
  n_cells : nat
}.

Definition n_active_cells (t : Triangulation) : nat :=
  length (active_cells t).

(** [DoFHandler] after [distribute_dofs]: the global indices of the
    degrees of freedom of each active cell, in the order of the cells, and
    the support point of each degree of freedom. *)
Record DoFHandler := mkDoFHandler {
  cell_dofs : list (list nat);
  support_points : list Point2
}.

Definition n_dofs (dh : DoFHandler) : nat := length (support_points dh).

(** [FEValues] at one quadrature point of a cell: the point, the weight
    [JxW], and the value and gradient of each shape function of the cell. *)
Record QPoint := mkQPoint {
  quadrature_point : Point2;
  JxW : R;
  shape_value : list R;
  shape_grad : list Tensor1
}.

(** [SparseMatrix<double>]: the entries of the sparsity pattern. *)
Abbreviation SparseMatrix := (gmap (nat * nat) R).

(** [SolverControl::State]. *)
Inductive SolverState := iterate | success | failure.

(** What the program takes from the library as it is. *)
Class DealII := {
  (** [GridIn::read_msh] on the contents of a file *)
  read_msh : string -> exn + Triangulation;
  (** [Triangulation::refine_global] *)
  refine_global : nat -> Triangulation -> Triangulation;
  (** [DoFHandler::distribute_dofs] for [FE_Q] of a degree *)
  distribute_dofs : nat -> Triangulation -> DoFHandler;
  (** [FEValues::reinit] for [FE_Q] of a degree and [QGauss] with a number
      of points *)
  fe_values : nat -> nat -> Cell -> list QPoint;
  (** [VectorTools::interpolate_boundary_values] *)
  interpolate_boundary_values :
    DoFHandler -> nat -> Function -> exn + gmap nat R;
  (** [MatrixTools::apply_boundary_values] *)
  apply_boundary_values :
    gmap nat R -> SparseMatrix -> Vector -> Vector ->
    SparseMatrix * Vector * Vector;
  (** the working vectors of [SolverCG] *)
  CgState : Type;
  (** the start of [SolverCG::solve] with the SSOR preconditioner of a
      relaxation parameter: matrix, start vector, right hand side *)
  cg_start : SparseMatrix -> R -> Vector -> Vector -> CgState;
  (** one iteration *)
  cg_iterate : CgState -> CgState;
  (** the norm of the residual and the iterate *)
  cg_residual : CgState -> R;
  cg_iterate_vector : CgState -> Vector
}.

(** [Vector::operator-=]. *)
Definition vector_sub (a b : Vector) : Vector := zip_with Rminus a b.

(** [Vector::l2_norm]. *)
Definition l2_norm (v : Vector) : R := sqrt (sumR ((fun x => x * x) <$> v)).

(** [Vector::operator=(0)] and [SparseMatrix::operator=(0)]. *)
Definition vector_zero (v : Vector) : Vector := (fun _ => 0) <$> v.
Definition matrix_zero (m : SparseMatrix) : SparseMatrix := (fun _ => 0) <$> m.

(** [SparseMatrix::add(i, j, x)]: the entry must be in the pattern. *)
Definition matrix_add (i j : nat) (x : R) (m : SparseMatrix)
  : exn + SparseMatrix :=
  match m !! (i, j) with
  | Some y => inr (<[(i, j) := y + x]> m)
  | None => inl "ExcInvalidIndex"
  end.

(** [DoFTools::make_sparsity_pattern]: the pairs of degrees of freedom
    that share a cell; [SparseMatrix::reinit] puts a zero at each. *)
Definition make_sparsity_pattern (dh : DoFHandler) : list (nat * nat) :=
  ldi ← cell_dofs dh; i ← ldi; j ← ldi; [(i, j)].

Definition matrix_reinit (pattern : list (nat * nat)) : SparseMatrix :=
  list_to_map ((fun ij => (ij, 0)) <$> pattern).

(** [VectorTools::interpolate] for Lagrange elements: the value of the
    function at the support point of each degree of freedom. *)
Definition interpolate (dh : DoFHandler) (f : Function) : option Vector :=
  mapM (value f) (support_points dh).

(** The finite element function of the vector [u] at a quadrature point of
    a cell with the degrees of freedom [ldi]: value and gradient. *)
Definition fe_function_value (u : Vector) (ldi : list nat) (q : QPoint) : R :=
  sumR (zip_with (fun i s => nth i u 0 * s) ldi (shape_value q)).

Definition fe_function_gradient (u : Vector) (ldi : list nat) (q : QPoint)
  : Tensor1 :=
  (sumR (zip_with (fun i g => nth i u 0 * fst g) ldi (shape_grad q)),
   sumR (zip_with (fun i g => nth i u 0 * snd g) ldi (shape_grad q))).

(** The integral over one cell of the squared difference to [f], by the
    quadrature rule [qs]: of the values, and of the gradients. *)
Definition cell_L2_integral (u : Vector) (f : Function) (ldi : list nat)
    (qs : list QPoint) : option R :=
  terms ← mapM (fun q =>
                  e ← value f (quadrature_point q);
                  let d := fe_function_value u ldi q - e in
                  Some (d * d * JxW q)) qs;
  Some (sumR terms).

Definition cell_H1_integral (u : Vector) (f : Function) (ldi : list nat)
    (qs : list QPoint) : option R :=
  terms ← mapM (fun q =>
                  g ← gradient f (quadrature_point q);
                  let gh := fe_function_gradient u ldi q in
                  let d := (fst gh - fst g, snd gh - snd g) in
                  Some (dot d d * JxW q)) qs;
  Some (sumR terms).

(** The squared difference to the exact solution at a quadrature point,
    with its weight: of the values, and of the gradients. *)
Definition L2_term (u : Vector) (ldi : list nat) (q : QPoint) : R :=
  (fe_function_value u ldi q - exact (quadrature_point q)) ^ 2 * JxW q.

Definition H1_term (u : Vector) (ldi : list nat) (q : QPoint) : R :=
  let gh := fe_function_gradient u ldi q in
  let g := exact_gradient (quadrature_point q) in
  dot (fst gh - fst g, snd gh - snd g) (fst gh - fst g, snd gh - snd g)
  * JxW q.

(** [VectorTools::NormType], the two the program asks for. *)
Inductive NormType := L2_norm | H1_seminorm.

(** [SolverControl(max_steps, tolerance)] and [SolverControl::check]. *)
Record SolverControl := mkSolverControl {
  max_steps : nat;
  tolerance : R
}.

Definition check (ctl : SolverControl) (step : nat) (check_value : R)
  : SolverState :=
  if Rle_dec check_value (tolerance ctl) then success
  else if (max_steps ctl <=? step)%nat then failure
  else iterate.

(** The files the program can open for reading, by name. *)
Abbreviation FileSystem := (gmap string string).

Section Program.
Context `{DealII}.

(** [VectorTools::integrate_difference]: for each active cell the norm of
    the difference over the cell, the square root of its integral. *)
Definition integrate_difference (tria : Triangulation) (dh : DoFHandler)
    (degree : nat) (u : Vector) (f : Function) (nq : nat) (nt : NormType)
  : option Vector :=
  mapM (fun '(cell, ldi) =>
          let qs := fe_values degree nq cell in
          x ← match nt with
              | L2_norm => cell_L2_integral u f ldi qs
              | H1_seminorm => cell_H1_integral u f ldi qs
              end;
          Some (sqrt x))
       (zip (active_cells tria) (cell_dofs dh)).

(** [SolverCG::solve]: the residual is checked before the first iteration
    and after each one, until [check] says otherwise.  [fuel] bounds the
    recursion; the result is the number of the last step, the working
    vectors and the last answer of [check]. *)
Fixpoint cg_loop (ctl : SolverControl) (fuel step : nat) (s : CgState)
  : option (nat * CgState * SolverState) :=
  match check ctl step (cg_residual s) with
  | iterate =>
      match fuel with
      | O => None
      | S fuel' => cg_loop ctl fuel' (S step) (cg_iterate s)
      end
  | conv => Some (step, s, conv)
  end.

Definition cg_solve (ctl : SolverControl) (A : SparseMatrix) (omega : R)
    (x b : Vector) : option (nat * CgState * SolverState) :=
  cg_loop ctl (S (max_steps ctl)) 0 (cg_start A omega x b).

(** *** [LaplaceProblem<2>] *)

Record LaplaceProblem := mkLaplaceProblem {
  nrefine : nat;
  triangulation : Triangulation;
  fe_degree : nat;
  dof_handler : DoFHandler;
  sparsity_pattern : list (nat * nat);
  system_matrix : SparseMatrix;
  solution : Vector;
  system_rhs : Vector
}.

Definition set_system_rhs (rhs : Vector) (p : LaplaceProblem)
  : LaplaceProblem :=
  mkLaplaceProblem (nrefine p) (triangulation p) (fe_degree p)
    (dof_handler p) (sparsity_pattern p) (system_matrix p) (solution p) rhs.

(** [DataOut]: the vectors attached by name and the subdivision of the
    patches. *)
Record DataOut := mkDataOut {
  data_vectors : list (string * Vector);
  n_subdivisions : nat
}.

(** [ConvergenceTable]: the columns by key in the order of their first
    value, and the calls that set the format and ask for rates. *)
Inductive TableEntry :=
| EUnsigned (n : nat)
| EDouble (x : R).

Inductive TableFormat :=
| set_precision (key : string) (digits : nat)
| set_scientific (key : string) (on : bool)
| set_tex_caption (key caption : string)
| set_tex_format (key format : string)
| evaluate_convergence_rates_log2 (key : string).

Record ConvergenceTable := mkConvergenceTable {
  columns : list (string * list TableEntry);
  formats : list TableFormat
}.

Fixpoint add_column_value (key : string) (v : TableEntry)
    (cols : list (string * list TableEntry))
  : list (string * list TableEntry) :=
  match cols with
  | [] => [(key, [v])]
  | (k, vs) :: cols' =>
      if String.eqb k key then (k, (vs ++ [v])%list) :: cols'
      else (k, vs) :: add_column_value key v cols'
  end.

Definition add_value (key : string) (v : TableEntry) (t : ConvergenceTable)
  : ConvergenceTable :=
  mkConvergenceTable (add_column_value key v (columns t)) (formats t).

Definition format (f : TableFormat) (t : ConvergenceTable)
  : ConvergenceTable :=
  mkConvergenceTable (columns t) (formats t ++ [f])%list.

(** What the program does that can be seen from outside, in order. *)
Inductive Event :=
| Cout (s : string)
| CoutUnsigned (n : nat)
| Endl
| WriteVtk (fname : string) (data : DataOut)
| WriteText (table : ConvergenceTable)
| WriteTex (fname : string) (table : ConvergenceTable).

Definition lift {A} (r : exn + A) : M Event A := ([], r).

(** A number that is not finite ends the model. *)
Definition finite {A} (r : option A) : M Event A :=
  match r with
  | Some a => ret a
  | None => throw "not a finite number"
  end.

(** [LaplaceProblem(degree, nrefine)]: empty triangulation, matrix and
    vectors. *)
Definition LaplaceProblem_new (degree : nat) (nrefine : nat)
  : LaplaceProblem :=
  mkLaplaceProblem nrefine (mkTriangulation [] 0) degree
                   (mkDoFHandler [] []) [] ∅ [] [].

Definition make_grid_and_dofs (fs : FileSystem) (p : LaplaceProblem)
  : M Event LaplaceProblem :=
  gfile <- lift (match fs !! "Gamma.msh" with
                 | Some contents => inr contents
                 | None => inl "Grid file not found"
                 end) ;;
  tria <- lift (read_msh gfile) ;;
  let tria := refine_global (nrefine p) tria in
  emit (Cout "   Number of active cells: ") ;;;
  emit (CoutUnsigned (n_active_cells tria)) ;;;
  emit Endl ;;;
  emit (Cout "   Total number of cells: ") ;;;
  emit (CoutUnsigned (n_cells tria)) ;;;
  emit Endl ;;;
  let dh := distribute_dofs (fe_degree p) tria in
  emit (Cout "   Number of degrees of freedom: ") ;;;
  emit (CoutUnsigned (n_dofs dh)) ;;;
  emit Endl ;;;
  let pattern := make_sparsity_pattern dh in
  ret (mkLaplaceProblem (nrefine p) tria (fe_degree p) dh pattern
         (matrix_reinit pattern)
         (replicate (n_dofs dh) 0)
         (replicate (n_dofs dh) 0)).

(** The local matrix of a cell: entry [(i, j)] sums over the quadrature
    points the product of the gradients of shape functions [i] and [j]
    with [JxW]. *)
Definition cell_matrix (qs : list QPoint) (i j : nat) : R :=
  sumR ((fun q => dot (nth i (shape_grad q) (0, 0))
                      (nth j (shape_grad q) (0, 0)) * JxW q) <$> qs).

(** The two loops that add the local matrix into the global one. *)
Definition add_local (ldi : list nat) (qs : list QPoint)
    (dofs_per_cell : nat) (m : SparseMatrix) : exn + SparseMatrix :=
  foldl (fun acc ij =>
           match acc with
           | inl e => inl e
           | inr m =>
               matrix_add (nth (fst ij) ldi O) (nth (snd ij) ldi O)
                          (cell_matrix qs (fst ij) (snd ij)) m
           end)
        (inr m)
        (i ← seq 0 dofs_per_cell; j ← seq 0 dofs_per_cell; [(i, j)]).

(** [FE_Q<2>::dofs_per_cell]. *)
Definition dofs_per_cell (degree : nat) : nat := ((degree + 1) * (degree + 1))%nat.

Definition assemble_system (p : LaplaceProblem) : M Event LaplaceProblem :=
  let system_matrix := matrix_zero (system_matrix p) in
  let system_rhs := vector_zero (system_rhs p) in
  system_matrix <-
    lift (foldl (fun acc '(cell, ldi) =>
                   match acc with
                   | inl e => inl e
                   | inr m =>
                       add_local ldi
                         (fe_values (fe_degree p) (2 * fe_degree p) cell)
                         (dofs_per_cell (fe_degree p)) m
                   end)
                (inr system_matrix)
                (zip (active_cells (triangulation p))
                     (cell_dofs (dof_handler p)))) ;;
  boundary_values <-
    lift (interpolate_boundary_values (dof_handler p) 0 ExactSolution) ;;
  let '(system_matrix, solution, system_rhs) :=
    apply_boundary_values boundary_values system_matrix (solution p)
                          system_rhs in
  ret (mkLaplaceProblem (nrefine p) (triangulation p) (fe_degree p)
         (dof_handler p) (sparsity_pattern p)
         system_matrix solution system_rhs).

(** [SolverControl solver_control (1000, 1e-12)]. *)
Definition solver_control : SolverControl :=
  mkSolverControl 1000 (1 / 10 ^ 12).

Definition solve (p : LaplaceProblem) : M Event LaplaceProblem :=
  r <- lift (match cg_solve solver_control (system_matrix p) (12 / 10)
                            (solution p) (system_rhs p) with
             | Some (last_step, s, success) => inr (last_step, s)
             | Some (_, _, _) => inl "SolverControl::NoConvergence"
             | None => inl "SolverCG does not return"
             end) ;;
  let '(last_step, s) := r in
  emit (Cout "   ") ;;;
  emit (CoutUnsigned last_step) ;;;
  emit (Cout " CG iterations needed to obtain convergence.") ;;;
  emit Endl ;;;
  ret (mkLaplaceProblem (nrefine p) (triangulation p) (fe_degree p)
         (dof_handler p) (sparsity_pattern p)
         (system_matrix p) (cg_iterate_vector s) (system_rhs p)).

(** [Utilities::int_to_string(n, 2)] for the numbers below 100. *)
Definition digit (n : nat) : string :=
  String (Ascii.ascii_of_nat (48 + n)) EmptyString.

Definition int_to_string2 (n : nat) : string :=
  (digit (n / 10 mod 10) ++ digit (n mod 10))%string.

Definition output_results (p : LaplaceProblem) : M Event LaplaceProblem :=
  system_rhs <- finite (interpolate (dof_handler p) ExactSolution) ;;
  let system_rhs := vector_sub system_rhs (solution p) in
  let data_out :=
    mkDataOut [("solution", solution p); ("error", system_rhs)]
              (fe_degree p) in
  let fname := ("solution-" ++ int_to_string2 (nrefine p) ++ ".vtk")%string in
  emit (WriteVtk fname data_out) ;;;
  ret (mkLaplaceProblem (nrefine p) (triangulation p) (fe_degree p)
         (dof_handler p) (sparsity_pattern p)
         (system_matrix p) (solution p) system_rhs).

(** [compute_error] is [const]: it gives the two errors and leaves the
    problem alone. *)
Definition compute_error (p : LaplaceProblem) : M Event (R * R) :=
  difference_per_cell <-
    finite (integrate_difference (triangulation p) (dof_handler p)
              (fe_degree p) (solution p) ExactSolution
              (2 * fe_degree p + 1) L2_norm) ;;
  let L2_error := l2_norm difference_per_cell in
  difference_per_cell <-
    finite (integrate_difference (triangulation p) (dof_handler p)
              (fe_degree p) (solution p) ExactSolution
              (2 * fe_degree p + 1) H1_seminorm) ;;
  let H1_error := l2_norm difference_per_cell in
  ret (L2_error, H1_error).

(** The discrete L2 error in the words of the specification: the square
    root of the sum over the elements of the integral, by quadrature, of
    the square of numerical minus exact.  The H1 error likewise, with the
    gradients. *)
Definition discrete_L2_error (p : LaplaceProblem) : R :=
  sqrt (sumR ((fun '(cell, ldi) =>
                 sumR (L2_term (solution p) ldi
                         <$> fe_values (fe_degree p) (2 * fe_degree p + 1)
                               cell))
                <$> zip (active_cells (triangulation p))
                        (cell_dofs (dof_handler p)))).

Definition discrete_H1_error (p : LaplaceProblem) : R :=
  sqrt (sumR ((fun '(cell, ldi) =>
                 sumR (H1_term (solution p) ldi
                         <$> fe_values (fe_degree p) (2 * fe_degree p + 1)
                               cell))
                <$> zip (active_cells (triangulation p))
                        (cell_dofs (dof_handler p)))).

(** The quadrature points of [compute_error]. *)
Definition error_quadrature (p : LaplaceProblem) : list QPoint :=
  cell ← active_cells (triangulation p);
  fe_values (fe_degree p) (2 * fe_degree p + 1) cell.

(** [run] sets its four reference arguments; they are its result here,
    next to the problem it leaves behind. *)
Definition run (fs : FileSystem) (p : LaplaceProblem)
  : M Event (nat * nat * R * R * LaplaceProblem) :=
  p <- make_grid_and_dofs fs p ;;
  p <- assemble_system p ;;
  p <- solve p ;;
  p <- output_results p ;;
  errors <- compute_error p ;;
  let '(L2_error, H1_error) := errors in
  let ncell := n_active_cells (triangulation p) in
  let ndofs := n_dofs (dof_handler p) in
  emit (Cout "-----------------------------------------------------\n") ;;;
  ret (ncell, ndofs, L2_error, H1_error, p).

(** The body of the loop of [main] for refinement level [n]. *)
Definition main_iteration (fs : FileSystem) (degree : nat)
    (convergence_table : ConvergenceTable) (n : nat)
  : M Event ConvergenceTable :=
  let problem := LaplaceProblem_new degree n in
  r <- run fs problem ;;
  let '(ncell, ndofs, L2_error, H1_error, _) := r in
  let convergence_table :=
    add_value "cells" (EUnsigned ncell) convergence_table in
  let convergence_table :=
    add_value "dofs" (EUnsigned ndofs) convergence_table in
  let convergence_table :=
    add_value "L2" (EDouble L2_error) convergence_table in
  let convergence_table :=
    add_value "H1" (EDouble H1_error) convergence_table in
  ret convergence_table.

Fixpoint main_loop (fs : FileSystem) (degree : nat)
    (convergence_table : ConvergenceTable) (ns : list nat)
  : M Event ConvergenceTable :=
  match ns with
  | [] => ret convergence_table
  | n :: ns' =>
      convergence_table <- main_iteration fs degree convergence_table n ;;
      main_loop fs degree convergence_table ns'
  end.

(** [main]; the call that silences deal.II's log has nothing to show
    here. *)
Definition main (fs : FileSystem) : M Event Z :=
  let degree := 1%nat in
  let convergence_table := mkConvergenceTable [] [] in
  convergence_table <-
    main_loop fs degree convergence_table (seq 0 5) ;;
  let convergence_table :=
    foldl (fun t f => format f t) convergence_table
      [set_precision "L2" 3; set_scientific "L2" true;
       set_precision "H1" 3; set_scientific "H1" true;
       set_tex_caption "cells" "\\# cells";
       set_tex_caption "dofs" "\\# dofs";
       set_tex_caption "L2" "$L^2$-error";
       set_tex_caption "H1" "$H^1$-error";
       set_tex_format "cells" "r"; set_tex_format "dofs" "r";
       evaluate_convergence_rates_log2 "L2";
       evaluate_convergence_rates_log2 "H1"] in
  emit Endl ;;;
  emit (WriteText convergence_table) ;;;
  emit (WriteTex "error.tex" convergence_table) ;;;
  ret 0%Z.

End Program.

(** *** Views of a trace, of a table and of the local matrix *)

(** The names of the VTK files written, in order. *)
Definition vtk_names (tr : list Event) : list string :=
  omap (fun ev => match ev with
                  | WriteVtk fname _ => Some fname
                  | _ => None
                  end) tr.

(** The events that write the convergence table. *)
Definition writes_table (ev : Event) : bool :=
  match ev with
  | WriteText _ | WriteTex _ _ => true
  | _ => false
  end.

(** The keys of the columns of a table, each with the number of its
    values. *)
Definition column_sizes (t : ConvergenceTable) : list (string * nat) :=
  (fun c => (fst c, length (snd c))) <$> columns t.

(** The quadratic form of the local matrix of a cell with [n] degrees of
    freedom at the coefficients [x]. *)
Definition cell_energy (qs : list QPoint) (n : nat) (x : nat -> R) : R :=
  sumR ((fun i =>
           sumR ((fun j => x i * cell_matrix qs i j * x j) <$> seq 0 n))
          <$> seq 0 n).

(** The matrix has an entry for every pair of degrees of freedom that
    share a cell. *)
Definition covers (m : SparseMatrix) (dh : DoFHandler) : Prop :=
  forall (ldi : list nat) (i j : nat),
    In ldi (cell_dofs dh) -> In i ldi -> In j ldi -> is_Some (m !! (i, j)).

(** *** A stand-in for the library, for running the program *)

(** One square cell with bilinear shape functions and the midpoint rule;
    the linear system is taken as solved by its start vector. *)
Definition toy : DealII := {|
  read_msh := fun _ =>
    inr (mkTriangulation [[(0, 0); (1, 0); (0, 1); (1, 1)]] 1);
  refine_global := fun _ t => t;
  distribute_dofs := fun _ _ =>
    mkDoFHandler [[0; 1; 2; 3]%nat] [(0, 0); (1, 0); (0, 1); (1, 1)];
  fe_values := fun _ _ _ =>
    [mkQPoint (1 / 2, 1 / 2) 1 [1 / 4; 1 / 4; 1 / 4; 1 / 4]
       [(- (1 / 2), - (1 / 2)); (1 / 2, - (1 / 2));
        (- (1 / 2), 1 / 2); (1 / 2, 1 / 2)]];
  interpolate_boundary_values := fun _ _ _ => inr ∅;
  apply_boundary_values := fun _ m x b => (m, x, b);
  CgState := Vector;
  cg_start := fun _ _ x _ => x;
  cg_iterate := fun s => s;
  cg_residual := fun _ => 0;
  cg_iterate_vector := fun s => s
|}.

Definition toy_fs : FileSystem := {["Gamma.msh" := "$MeshFormat"]}.

(** The problem of the stand-in after [make_grid_and_dofs]. *)
Definition toy_problem : LaplaceProblem :=
  let dh := mkDoFHandler [[0; 1; 2; 3]%nat] [(0, 0); (1, 0); (0, 1); (1, 1)] in
  mkLaplaceProblem 0 (mkTriangulation [[(0, 0); (1, 0); (0, 1); (1, 1)]] 1)
    1 dh (make_sparsity_pattern dh)
    (matrix_reinit (make_sparsity_pattern dh))
    [0; 0; 0; 0] [0; 0; 0; 0].

(** The same after [assemble_system]. *)
Definition toy_assembled : LaplaceProblem :=
  match result (@assemble_system toy toy_problem) with
  | inr p => p
  | inl _ => toy_problem
  end.

End Laplace.

(** * Properties *)

(** ** The monad of traces *)

(** A computation that is a [bind] and yields a value splits in two that
    do. *)
Lemma bind_inr {E A B} (c : M E A) (k : A -> M E B) tr (b : B) :
  bind c k = (tr, inr b) ->
  exists tr1 a tr2,
    c = (tr1, inr a) /\ k a = (tr2, inr b) /\ tr = (tr1 ++ tr2)%list.
Proof.
  destruct c as [tr1 [e | a]]; simpl; [discriminate |].
  destruct (k a) as [tr2 r] eqn:Hk. intros [= <- ->].
  exists tr1, a, tr2. auto.
Qed.

(** Two computations that yield a value, one after the other, do. *)
Lemma bind_completes {E A B} (c : M E A) (k : A -> M E B) tr1 (a : A) :
  c = (tr1, inr a) ->
  (exists tr2 b, k a = (tr2, inr b)) ->
  exists tr b, bind c k = (tr, inr b).
Proof.
  intros -> (tr2 & b & Hk). exists (tr1 ++ tr2)%list, b.
  unfold bind. rewrite Hk. reflexivity.
Qed.

(** ** The driver of the 1-D solver *)
Section Main1dFacts.
Import Main1d.
Context `{Headers}.

Lemma main_without_file (fs : FileSystem) (argv : list string) :
  (Z.of_nat (length argv) < 2)%Z ->
  main fs argv =
    ([Cout "Specify input parameter file\n";
      Cout "It should contain following parameters.\n\n";
      PrintParameters (declare_parameters ∅)],
     inr 0%Z).
Proof.
  intros Hargc. unfold main.
  destruct (Z.ltb_spec (Z.of_nat (length argv)) 2) as [_ | Hge]; [| lia].
  reflexivity.
Qed.

(** C6: started without an input parameter file, [main] reports the
    expected parameters first and ends there: nothing in its trace reads a
    configuration, constructs the problem or runs it, whatever files exist
    (no file is looked for, none is substituted), and [main] returns
    instead of going on. *)
Theorem main_missing_input_aborts (fs : FileSystem) (argv : list string) :
  (Z.of_nat (length argv) < 2)%Z ->
  (exists rest,
      trace (main fs argv) = Cout "Specify input parameter file\n" :: rest
      /\ In (PrintParameters (declare_parameters ∅)) rest)
  /\ forallb (fun ev => negb (starts_problem ev) && negb (reads_input ev))
             (trace (main fs argv)) = true
  /\ constructed (trace (main fs argv)) = []
  /\ (exists code, outcome (main fs argv) = Exit code)
  /\ main fs argv = main ∅ argv.
Proof.
  intros Hargc.
  rewrite !(main_without_file _ _ Hargc).
  repeat split.
  - eexists. split; [reflexivity |]. simpl. auto.
  - exists 0%Z. reflexivity.
Qed.

(** C8: with fewer than two command-line arguments [main] prints the two
    lines and the list of the declared parameters, nothing else, and
    returns the exit code 0. *)
Theorem main_missing_input_exit_code (fs : FileSystem)
    (argv : list string) :
  (Z.of_nat (length argv) < 2)%Z ->
  trace (main fs argv) =
    [Cout "Specify input parameter file\n";
     Cout "It should contain following parameters.\n\n";
     PrintParameters (declare_parameters ∅)]
  /\ outcome (main fs argv) = Exit 0.
Proof.
  intros Hargc. rewrite (main_without_file _ _ Hargc). split; reflexivity.
Qed.

(** C5, as amended: every problem [main] constructs has the domain bounds
    of the initial condition of the test case that the parsed input names;
    they replace the bounds [parse_parameters] read, while the other
    fields of the parameters stay as read. *)
Theorem main_bounds_from_test_case (fs : FileSystem) (argv : list string)
    (problem : ScalarProblem) :
  In problem (constructed (trace (main fs argv))) ->
  exists filename ph cfg name tc,
    argv !! 1%nat = Some filename
    /\ parse_input fs filename (declare_parameters ∅) = inr ph
    /\ parse_parameters ph = inr cfg
    /\ get ph "test case" = inr name
    /\ get_test_case name = inr tc
    /\ initial_condition problem = InitialCondition_new tc
    /\ xmin (param problem) = fst (domain tc)
    /\ xmax (param problem) = snd (domain tc)
    /\ degree (param problem) = degree cfg
    /\ n_cells (param problem) = n_cells cfg
    /\ cfl (param problem) = cfl cfg
    /\ final_time (param problem) = final_time cfg.
Proof.
  unfold main. cbv zeta.
  destruct (Z.ltb_spec (Z.of_nat (length argv)) 2) as [Hlt | Hge];
    [simpl; tauto |].
  destruct (argv !! 1%nat) as [filename |]; simpl; [| tauto].
  destruct (parse_input _ _ _) as [e | ph] eqn:Hph; simpl; [tauto |].
  destruct (parse_parameters ph) as [e | cfg] eqn:Hcfg; simpl; [tauto |].
  destruct (get ph "test case") as [e | name] eqn:Hname; simpl; [tauto |].
  destruct (get_test_case name) as [e | tc] eqn:Htc; simpl; [tauto |].
  intros [<- | []].
  exists filename, ph, cfg, name, tc. simpl. repeat split; auto.
Qed.

End Main1dFacts.

Section Main1dRuns.
Import Main1d.

Lemma main_missing_input_aborts_witness :
  (Z.of_nat (length ["dg"]) < 2)%Z
  /\ constructed (trace (@main spec_headers disk ["dg"])) = [].
Proof.
  split; [simpl; lia |].
  apply (@main_missing_input_aborts spec_headers disk ["dg"]).
  simpl; lia.
Defined.

Lemma main_missing_input_exit_code_witness :
  (Z.of_nat (length ["dg"]) < 2)%Z
  /\ outcome (@main spec_headers disk ["dg"]) = Exit 0.
Proof.
  split; [simpl; lia |].
  apply (@main_missing_input_exit_code spec_headers disk ["dg"]).
  simpl; lia.
Defined.

Lemma main_constructs_sine_problem :
  constructed (trace (@main spec_headers disk ["dg"; "input.prm"]))
  = [sine_problem].
Proof. reflexivity. Qed.

Lemma main_bounds_from_test_case_witness :
  In sine_problem
     (constructed (trace (@main spec_headers disk ["dg"; "input.prm"])))
  /\ xmin (param sine_problem) = 0%Q.
Proof.
  assert (Hin : In sine_problem
     (constructed (trace (@main spec_headers disk ["dg"; "input.prm"])))).
  { rewrite main_constructs_sine_problem. left. reflexivity. }
  split; [exact Hin |].
  destruct (@main_bounds_from_test_case spec_headers disk
              ["dg"; "input.prm"] sine_problem Hin)
    as (filename & ph & cfg & name & tc & _ & _ & _ & _ & _ & _ & Hx & _).
  rewrite Hx. destruct tc. reflexivity.
Defined.

(** C5, as stated, fails: [input.prm] supplies the bounds [-1] and [1],
    and the problem is constructed with [0] and [1], the bounds of the
    test case. *)
Lemma main_bounds_not_from_configuration :
  @configured_bounds spec_headers disk "input.prm" = Some ((-1)%Q, 1%Q)
  /\ @problem_bounds spec_headers disk ["dg"; "input.prm"] = [(0%Q, 1%Q)]
  /\ ~ (forall b, In b (@problem_bounds spec_headers disk ["dg"; "input.prm"]) ->
        @configured_bounds spec_headers disk "input.prm" = Some b).
Proof.
  assert (Hc : @configured_bounds spec_headers disk "input.prm"
               = Some ((-1)%Q, 1%Q)) by (vm_compute; reflexivity).
  assert (Hp : @problem_bounds spec_headers disk ["dg"; "input.prm"]
               = [(0%Q, 1%Q)]) by (vm_compute; reflexivity).
  split; [exact Hc |]. split; [exact Hp |].
  intros Hall. specialize (Hall (0%Q, 1%Q)).
  rewrite Hp, Hc in Hall. specialize (Hall (or_introl eq_refl)).
  discriminate Hall.
Qed.

End Main1dRuns.

(** ** The discontinuous Galerkin core *)
Section DgCoreFacts.
Import DgCore.
Local Open Scope Q_scope.

(** *** Sums *)

Lemma sumQ_fmap_ext {A} (f g : A -> Q) (l : list A) :
  (forall x, In x l -> f x == g x) ->
  sumQ (f <$> l) == sumQ (g <$> l).
Proof.
  induction l as [| x l IH]; intros Hfg; simpl; [reflexivity |].
  rewrite (Hfg x) by (left; reflexivity).
  rewrite IH; [reflexivity |].
  intros y Hy. apply Hfg. right. exact Hy.
Qed.

(** A sum of increments collapses to the difference of its ends. *)
Lemma sumQ_telescope (a G : nat -> Q) (n k : nat) :
  sumQ ((fun i => a i + (G (S i) - G i)) <$> seq k n)
  == sumQ (a <$> seq k n) + (G (k + n)%nat - G k).
Proof.
  revert k. induction n as [| n IH]; intros k.
  - rewrite Nat.add_0_r. simpl. ring.
  - replace (k + S n)%nat with (S k + n)%nat by lia.
    cbn [seq fmap list_fmap sumQ]. rewrite IH. ring.
Qed.

(** The total as a sum over the element indices. *)
Lemma total_by_index (v : nat) (u : State) :
  total v u = sumQ ((fun i => avg v (nth i u [])) <$> seq 0 (length u)).
Proof.
  unfold total. f_equal. apply list_eq. intros i.
  rewrite !list_lookup_fmap.
  destruct (decide (i < length u)%nat) as [Hi | Hi].
  - rewrite lookup_seq_lt by exact Hi. simpl.
    rewrite nth_lookup.
    destruct (u !! i) as [e |] eqn:He; [reflexivity |].
    apply lookup_ge_None in He. lia.
  - rewrite lookup_seq_ge by lia.
    rewrite (proj2 (lookup_ge_None u i)) by lia. reflexivity.
Qed.

(** *** Cell averages *)

Lemma avg_head (v : nat) (e : Element) :
  avg v e = default 0 (e !! v ≫= head).
Proof.
  unfold avg. destruct (e !! v) as [[| c0 c] |]; reflexivity.
Qed.

Lemma avg_lookup_cons (v : nat) (e : Element) c0 rest :
  e !! v = Some (c0 :: rest) -> avg v e = c0.
Proof. unfold avg. intros ->. reflexivity. Qed.

Lemma shaped_lookup (nvar nmodes : nat) (u : State) i e :
  shaped nvar nmodes u -> u !! i = Some e ->
  length e = nvar /\ Forall (fun c : Coeffs => length c = nmodes) e.
Proof.
  intros Hu He. unfold shaped in Hu.
  rewrite Forall_forall in Hu. apply Hu.
  eapply list_elem_of_lookup_2. exact He.
Qed.

Lemma shaped_coeffs (nvar nmodes : nat) (u : State) i e v :
  shaped nvar nmodes u -> u !! i = Some e ->
  (v < nvar)%nat -> (0 < nmodes)%nat ->
  exists c0 rest, e !! v = Some (c0 :: rest).
Proof.
  intros Hu He Hv Hm.
  destruct (shaped_lookup _ _ _ _ _ Hu He) as [Hlen Hall].
  destruct (e !! v) as [c |] eqn:Hc.
  - rewrite Forall_forall in Hall.
    assert (Hlc : length c = nmodes).
    { apply Hall. eapply list_elem_of_lookup_2. exact Hc. }
    destruct c as [| c0 rest]; [simpl in Hlc; lia |].
    exists c0, rest. reflexivity.
  - apply lookup_ge_None in Hc. lia.
Qed.


(** *** The limiter *)

Lemma limit_coeffs_head (cfg : Config) (ul ur : Q) (c : Coeffs) :
  head (limit_coeffs cfg ul ur c) = head c.
Proof.
  destruct c as [| c0 [| c1 rest]]; simpl; try reflexivity.
  destruct (Qle_bool _ _); reflexivity.
Qed.

Lemma limit_coeffs_length (cfg : Config) (ul ur : Q) (c : Coeffs) :
  length (limit_coeffs cfg ul ur c) = length c.
Proof.
  destruct c as [| c0 [| c1 rest]]; simpl; try reflexivity.
  destruct (Qle_bool _ _); simpl; [reflexivity |].
  rewrite length_fmap. reflexivity.
Qed.

Lemma lookup_limiter (cfg : Config) (u : State) (i v : nat) :
  limiter cfg u !! i ≫= (fun e : Element => e !! v)
  = limit_coeffs cfg (left_average cfg u i v) (right_average cfg u i v)
      <$> (u !! i ≫= (fun e : Element => e !! v)).
Proof.
  unfold limiter. rewrite list_lookup_imap.
  destruct (u !! i) as [e |]; simpl; [| reflexivity].
  rewrite list_lookup_imap. reflexivity.
Qed.

Lemma avg_limiter (cfg : Config) (u : State) (v : nat) :
  avg v <$> limiter cfg u = avg v <$> u.
Proof.
  apply list_eq. intros i. rewrite !list_lookup_fmap.
  unfold limiter. rewrite list_lookup_imap.
  destruct (u !! i) as [e |]; simpl; [| reflexivity].
  f_equal. rewrite !avg_head, list_lookup_imap.
  destruct (e !! v) as [c |]; simpl; [| reflexivity].
  rewrite limit_coeffs_head. reflexivity.
Qed.

Lemma total_limiter (cfg : Config) (u : State) (v : nat) :
  total v (limiter cfg u) = total v u.
Proof. unfold total. rewrite avg_limiter. reflexivity. Qed.

Lemma shaped_limiter (cfg : Config) (nvar nmodes : nat) (u : State) :
  shaped nvar nmodes u -> shaped nvar nmodes (limiter cfg u).
Proof.
  intros Hu. unfold shaped. apply Forall_lookup_2. intros i e' He'.
  unfold limiter in He'. rewrite list_lookup_imap in He'.
  destruct (u !! i) as [e |] eqn:He; simpl in He'; [| discriminate].
  injection He' as <-.
  destruct (shaped_lookup _ _ _ _ _ Hu He) as [Hlen Hall].
  split; [rewrite length_imap; exact Hlen |].
  apply Forall_lookup_2. intros v c' Hc'.
  rewrite list_lookup_imap in Hc'.
  destruct (e !! v) as [c |] eqn:Hc; simpl in Hc'; [| discriminate].
  injection Hc' as <-. rewrite limit_coeffs_length.
  eapply (Forall_lookup_1 _ _ _ _ Hall). exact Hc.
Qed.


(** *** Convex combinations *)

Lemma length_combine (a b : Q) (u w : State) :
  length u = length w -> length (combine a u b w) = length u.
Proof. intros Hl. unfold combine. rewrite length_zip_with. lia. Qed.

Lemma shaped_combine (a b : Q) (nvar nmodes : nat) (u w : State) :
  shaped nvar nmodes u -> shaped nvar nmodes w ->
  shaped nvar nmodes (combine a u b w).
Proof.
  intros Hu Hw. unfold shaped. apply Forall_lookup_2. intros i e He.
  unfold combine in He. apply lookup_zip_with_Some in He.
  destruct He as (e1 & e2 & -> & He1 & He2).
  destruct (shaped_lookup _ _ _ _ _ Hu He1) as [Hl1 Ha1].
  destruct (shaped_lookup _ _ _ _ _ Hw He2) as [Hl2 Ha2].
  split; [rewrite length_zip_with; lia |].
  apply Forall_lookup_2. intros v c Hc.
  apply lookup_zip_with_Some in Hc.
  destruct Hc as (c1 & c2 & -> & Hc1 & Hc2).
  rewrite length_zip_with.
  rewrite (Forall_lookup_1 _ _ _ _ Ha1 Hc1), (Forall_lookup_1 _ _ _ _ Ha2 Hc2).
  lia.
Qed.

Lemma total_combine (a b : Q) (nvar nmodes v : nat) :
  (v < nvar)%nat -> (0 < nmodes)%nat ->
  forall u w : State,
    shaped nvar nmodes u -> shaped nvar nmodes w -> length u = length w ->
    total v (combine a u b w) == a * total v u + b * total v w.
Proof.
  intros Hv Hm. unfold total, combine.
  induction u as [| e1 u IH]; intros [| e2 w] Hu Hw Hl;
    try discriminate.
  - simpl. ring.
  - cbn [zip_with]. rewrite !fmap_cons. cbn [sumQ].
    apply Forall_cons in Hu as [He1 Hu]. apply Forall_cons in Hw as [He2 Hw].
    rewrite IH by (auto; simpl in Hl; lia).
    destruct (shaped_coeffs nvar nmodes [e1] 0 e1 v) as (x & r1 & Hx);
      [repeat constructor; tauto | reflexivity | exact Hv | exact Hm |].
    destruct (shaped_coeffs nvar nmodes [e2] 0 e2 v) as (y & r2 & Hy);
      [repeat constructor; tauto | reflexivity | exact Hv | exact Hm |].
    rewrite (avg_lookup_cons v e1 x r1 Hx), (avg_lookup_cons v e2 y r2 Hy).
    erewrite avg_lookup_cons;
      [| rewrite lookup_zip_with, Hx, Hy; simpl; reflexivity].
    ring.
Qed.

(** *** The residual update *)
Section Update.
Context `{Basis} `{Physics}.
Variable cfg : Config.

(** Mode zero is the constant one: its coefficient is the cell average. *)
Hypothesis phi_0 : forall x, phi 0 x == 1.
Hypothesis dphi_0 : forall x, dphi 0 x == 0.

Lemma length_euler_update (u : State) (dt : Q) :
  length (euler_update cfg u dt) = length u.
Proof. unfold euler_update. apply length_imap. Qed.

Lemma shaped_euler_update (nvar nmodes : nat) (u : State) (dt : Q) :
  shaped nvar nmodes u -> shaped nvar nmodes (euler_update cfg u dt).
Proof.
  intros Hu. unfold shaped. apply Forall_lookup_2. intros i e' He'.
  unfold euler_update in He'. rewrite list_lookup_imap in He'.
  destruct (u !! i) as [e |] eqn:He; simpl in He'; [| discriminate].
  injection He' as <-.
  destruct (shaped_lookup _ _ _ _ _ Hu He) as [Hlen Hall].
  split; [rewrite length_imap; exact Hlen |].
  apply Forall_lookup_2. intros v c' Hc'.
  rewrite list_lookup_imap in Hc'.
  destruct (e !! v) as [c |] eqn:Hc; simpl in Hc'; [| discriminate].
  injection Hc' as <-. rewrite length_imap.
  eapply (Forall_lookup_1 _ _ _ _ Hall). exact Hc.
Qed.

(** The constant mode has no volume term. *)
Lemma volume_integral_0 (e : Element) (v : nat) :
  volume_integral e v 0 == 0.
Proof.
  unfold volume_integral.
  induction quadrature as [| [xi w] qs IH]; simpl; [reflexivity |].
  rewrite IH, dphi_0. ring.
Qed.

(** Flux form: a cell average changes by what enters on the left minus
    what leaves on the right. *)
Lemma residual_0 (u : State) (dt : Q) (i v : nat) :
  dt * residual cfg u i v 0
  == scaled_flux cfg u dt v (S i) - scaled_flux cfg u dt v i.
Proof.
  unfold residual, scaled_flux.
  rewrite volume_integral_0, !phi_0. unfold Qdiv. ring.
Qed.

Lemma avg_euler_update (nvar nmodes : nat) (u : State) (dt : Q) (i v : nat) :
  shaped nvar nmodes u -> (v < nvar)%nat -> (0 < nmodes)%nat ->
  (i < length u)%nat ->
  avg v (nth i (euler_update cfg u dt) [])
  = avg v (nth i u []) + dt * residual cfg u i v 0.
Proof.
  intros Hu Hv Hm Hi.
  destruct (u !! i) as [e |] eqn:He;
    [| apply lookup_ge_None in He; lia].
  destruct (shaped_coeffs _ _ _ _ _ v Hu He Hv Hm) as (c0 & rest & Hc).
  rewrite !nth_lookup. unfold euler_update.
  rewrite list_lookup_imap, He. simpl.
  rewrite (avg_lookup_cons v e c0 rest Hc).
  apply avg_lookup_cons with
    (rest := imap (fun m x => x + dt * residual cfg u i v (S m)) rest).
  rewrite list_lookup_imap, Hc. reflexivity.
Qed.

(** With periodic closure the last interface is the first one. *)
Lemma interface_flux_periodic (u : State) :
  boundary cfg = Periodic ->
  interface_flux cfg u (length u) = interface_flux cfg u 0.
Proof.
  intros Hbc. unfold interface_flux. rewrite Hbc.
  destruct (length u) as [| n] eqn:Hn; [reflexivity |].
  replace (S n + S n - 1)%nat with (n + 1 * S n)%nat by lia.
  replace (0 + S n - 1)%nat with n by lia.
  rewrite Nat.Div0.mod_add, Nat.Div0.mod_same, Nat.Div0.mod_0_l.
  reflexivity.
Qed.

Lemma total_euler_update (nvar nmodes : nat) (u : State) (dt : Q) (v : nat) :
  boundary cfg = Periodic ->
  shaped nvar nmodes u -> (v < nvar)%nat -> (0 < nmodes)%nat ->
  total v (euler_update cfg u dt) == total v u.
Proof.
  intros Hbc Hu Hv Hm.
  rewrite !total_by_index, length_euler_update.
  rewrite (sumQ_fmap_ext _
             (fun i => avg v (nth i u [])
                       + (scaled_flux cfg u dt v (S i) - scaled_flux cfg u dt v i))).
  - rewrite sumQ_telescope. simpl.
    unfold scaled_flux. rewrite (interface_flux_periodic u Hbc). ring.
  - intros i Hi. apply in_seq in Hi.
    rewrite (avg_euler_update nvar nmodes) by (auto; lia).
    rewrite residual_0. reflexivity.
Qed.


(** *** Stages *)

Lemma kept_refl (nvar nmodes v : nat) (u : State) :
  shaped nvar nmodes u -> kept (length u) nvar nmodes v u u.
Proof. intros Hu. split; [reflexivity | split; [exact Hu | reflexivity]]. Qed.

Lemma kept_stage (a b : Q) (nvar nmodes v : nat) (u_n u : State) (dt : Q) :
  boundary cfg = Periodic ->
  a + b == 1 ->
  (v < nvar)%nat -> (0 < nmodes)%nat ->
  shaped nvar nmodes u_n ->
  kept (length u_n) nvar nmodes v u_n u ->
  kept (length u_n) nvar nmodes v u_n (stage cfg a b u_n u dt)
  /\ total v (stage cfg a b u_n u dt) == total v u.
Proof.
  intros Hbc Hab Hv Hm Hn (Hl & Hu & Ht).
  assert (Hw : shaped nvar nmodes (combine a u_n b (euler_update cfg u dt)))
    by (apply shaped_combine; [exact Hn | apply shaped_euler_update, Hu]).
  assert (Hlw : length (combine a u_n b (euler_update cfg u dt))
                = length u_n)
    by (apply length_combine; rewrite length_euler_update; lia).
  assert (Htw : total v (combine a u_n b (euler_update cfg u dt))
                == total v u).
  { rewrite (total_combine a b nvar nmodes v Hv Hm)
      by (auto using shaped_euler_update;
          rewrite length_euler_update; lia).
    rewrite (total_euler_update nvar nmodes) by assumption.
    rewrite <- Ht.
    transitivity ((a + b) * total v u); [ring |]. rewrite Hab. ring. }
  unfold stage, kept. destruct (limiter_on cfg).
  - rewrite total_limiter. unfold limiter at 1. rewrite length_imap.
    split; [split; [exact Hlw | split] | exact Htw].
    + apply shaped_limiter, Hw.
    + rewrite Htw. exact Ht.
  - split; [split; [exact Hlw | split; [exact Hw |]] | exact Htw].
    rewrite Htw. exact Ht.
Qed.

Lemma kept_step_stages (coeffs : list (Q * Q)) (nvar nmodes v : nat)
    (u_n : State) (dt : Q) :
  boundary cfg = Periodic ->
  Forall (fun ab => fst ab + snd ab == 1) coeffs ->
  (v < nvar)%nat -> (0 < nmodes)%nat ->
  shaped nvar nmodes u_n ->
  forall u,
    kept (length u_n) nvar nmodes v u_n u ->
    Forall (fun ba : State * State => total v (snd ba) == total v (fst ba))
           (step_stages cfg coeffs u_n u dt)
    /\ kept (length u_n) nvar nmodes v u_n
            (last_state u (step_stages cfg coeffs u_n u dt)).
Proof.
  intros Hbc Hco Hv Hm Hn.
  induction coeffs as [| [a b] coeffs IH]; intros u Hu.
  - split; [constructor | exact Hu].
  - apply Forall_cons in Hco as [Hab Hco]. simpl in Hab.
    destruct (kept_stage a b nvar nmodes v u_n u dt Hbc Hab Hv Hm Hn Hu)
      as [Hu' Ht].
    destruct (IH Hco _ Hu') as [Hall Hlast].
    cbn [step_stages]. split.
    + constructor; [exact Ht | exact Hall].
    + unfold last_state in *. rewrite last_cons.
      destruct (last (step_stages cfg coeffs u_n
                        (stage cfg a b u_n u dt) dt)) as [[w w'] |];
        exact Hlast.
Qed.

Lemma run_stages_conserve (nvar nmodes v steps : nat) :
  boundary cfg = Periodic ->
  Forall (fun ab => fst ab + snd ab == 1) (rk cfg) ->
  (v < nvar)%nat -> (0 < nmodes)%nat ->
  forall (t : Q) (u : State),
    shaped nvar nmodes u ->
    Forall (fun ba : State * State => total v (snd ba) == total v (fst ba))
           (run_stages cfg steps t u).
Proof.
  intros Hbc Hco Hv Hm.
  induction steps as [| steps IH]; intros t u Hu; cbn [run_stages];
    [constructor |].
  destruct (Qltb t (T_final cfg)); [| constructor].
  destruct (kept_step_stages (rk cfg) nvar nmodes v u (time_step cfg t u)
              Hbc Hco Hv Hm Hu u (kept_refl nvar nmodes v u Hu))
    as [Hall (_ & Hlast & _)].
  apply Forall_app. split; [exact Hall |].
  apply IH. exact Hlast.
Qed.

End Update.

(** C1: in every run with periodic closure, whatever the basis with a
    constant zeroth mode, the physical and numerical flux, the weights of
    the stages (each pair summing to one), the number of elements, of
    variables and of modes, the step sizes and the limiter switch: after
    each Runge-Kutta stage the sum over the mesh of the zeroth coefficients
    of a conserved variable is the sum before the stage. *)
Theorem conservation `{Basis} `{Physics} (cfg : Config)
    (nvar nmodes v steps : nat) (t : Q) (u : State) :
  (forall x, phi 0 x == 1) ->
  (forall x, dphi 0 x == 0) ->
  boundary cfg = Periodic ->
  Forall (fun ab => fst ab + snd ab == 1) (rk cfg) ->
  shaped nvar nmodes u ->
  (v < nvar)%nat -> (0 < nmodes)%nat ->
  Forall (fun ba : State * State => total v (snd ba) == total v (fst ba))
         (run_stages cfg steps t u).
Proof.
  intros Hphi Hdphi Hbc Hco Hu Hv Hm.
  exact (run_stages_conserve cfg Hphi Hdphi nvar nmodes v steps
           Hbc Hco Hv Hm t u Hu).
Qed.

Lemma conservation_witness :
  boundary (sample_config Periodic) = Periodic
  /\ shaped 1 2 sample_state
  /\ Forall (fun ba : State * State => total 0 (snd ba) == total 0 (fst ba))
            (@run_stages legendre_basis linear_advection
               (sample_config Periodic) 1 0 sample_state).
Proof.
  split; [reflexivity |]. split; [repeat constructor |].
  apply (@conservation legendre_basis linear_advection
           (sample_config Periodic) 1 2 0 1 0 sample_state).
  - intros x. reflexivity.
  - intros x. reflexivity.
  - reflexivity.
  - repeat constructor.
  - repeat constructor.
  - lia.
  - lia.
Defined.

(** The run of the witness has three stages, and they move the state. *)
Example sample_run_stages :
  length (@run_stages legendre_basis linear_advection
            (sample_config Periodic) 1 0 sample_state) = 3%nat
  /\ (avg 0 <$> @euler_update legendre_basis linear_advection
                  (sample_config Periodic) sample_state (1 # 10))
     = [64 # 80; 128 # 40; -8 # 20; 48 # 20].
Proof. split; vm_compute; reflexivity. Qed.

(** With physical closure the total does change: what enters at the left
    end is not what leaves at the right end. *)
Example physical_closure_not_conservative :
  ~ total 0 (@euler_update legendre_basis linear_advection
               (sample_config (Physical [0] [0])) sample_state (1 # 10))
    == total 0 sample_state.
Proof. vm_compute. discriminate. Qed.

(** C2: the limiter leaves the zeroth coefficient of every variable of
    every element as it is, present or not, and keeps the number of
    coefficients; so it changes modes of order one and more only. *)
Theorem limiter_preserves_cell_average (cfg : Config) :
  (forall (ul ur : Q) (c : Coeffs),
      limit_coeffs cfg ul ur c !! 0%nat = c !! 0%nat
      /\ length (limit_coeffs cfg ul ur c) = length c)
  /\ (forall (u : State) (i v : nat),
        (limiter cfg u !! i ≫= (fun e : Element => e !! v))
          ≫= (fun c : Coeffs => c !! 0%nat)
        = (u !! i ≫= (fun e : Element => e !! v))
            ≫= (fun c : Coeffs => c !! 0%nat)).
Proof.
  assert (Hc : forall ul ur (c : Coeffs),
             limit_coeffs cfg ul ur c !! 0%nat = c !! 0%nat).
  { intros ul ur c. rewrite <- !head_lookup. apply limit_coeffs_head. }
  split.
  - intros ul ur c. split; [apply Hc | apply limit_coeffs_length].
  - intros u i v. rewrite lookup_limiter.
    destruct (u !! i ≫= (fun e : Element => e !! v)) as [c |];
      simpl; [apply Hc | reflexivity].
Qed.

(** The limiter does act: in the sample state it removes the slopes of the
    last three elements and keeps the four averages. *)
Example limiter_sample :
  limiter (sample_config Periodic) sample_state
  = [[[1; 1 # 2]]; [[3; 0]]; [[2; 0]]; [[0; 0]]].
Proof. vm_compute. reflexivity. Qed.

End DgCoreFacts.

(** ** The Laplace program *)
Section LaplaceFacts.
Import Laplace.
Local Open Scope R_scope.

(** *** The exact solution *)

Lemma atan2_bounds (y x : R) : - PI < atan2 y x <= PI.
Proof.
  pose proof PI_RGT_0 as Hpi.
  pose proof (atan_bound (y / x)) as Hb.
  unfold atan2.
  destruct (Rlt_dec 0 x); [lra |].
  destruct (Rlt_dec x 0).
  - assert (Hinv : / x < 0) by (apply Rinv_lt_0_compat; lra).
    destruct (Rle_dec 0 y) as [Hy | Hy].
    + assert (Hq : y / x <= 0) by (unfold Rdiv; nra).
      assert (atan (y / x) <= 0).
      { rewrite <- atan_0. destruct Hq as [Hq | Hq].
        - left. apply atan_increasing. exact Hq.
        - rewrite Hq. lra. }
      lra.
    + assert (Hq : 0 < y / x) by (unfold Rdiv; nra).
      assert (0 < atan (y / x)).
      { rewrite <- atan_0. apply atan_increasing. exact Hq. }
      lra.
  - destruct (Rlt_dec 0 y); [lra |].
    destruct (Rlt_dec y 0); lra.
Qed.

Lemma normalized_angle_range (p : Point2) :
  0 <= normalized_angle p < 2 * PI.
Proof.
  pose proof PI_RGT_0 as Hpi.
  pose proof (atan2_bounds (snd p) (fst p)) as Hb.
  unfold normalized_angle, M_PI.
  destruct (Rlt_dec (atan2 (snd p) (fst p)) 0); lra.
Qed.

Lemma norm_nonneg (p : Point2) : 0 <= norm p.
Proof. apply sqrt_pos. Qed.

Lemma pow_two_thirds (r : R) :
  0 <= r ->
  pow r (2 / 3) = Some (if Rlt_dec 0 r then Rpower r (2 / 3) else 0).
Proof.
  intros Hr. unfold pow.
  destruct (Rlt_dec 0 r); [reflexivity |].
  destruct (Rlt_dec r 0); [lra |].
  destruct (Rlt_dec 0 (2 / 3)); [reflexivity | lra].
Qed.

Lemma ExactSolution_value_exact (p : Point2) :
  ExactSolution_value p = Some (exact p).
Proof.
  unfold ExactSolution_value, exact, normalized_angle.
  rewrite (pow_two_thirds (norm p) (norm_nonneg p)). reflexivity.
Qed.

Lemma ExactSolution_gradient_exact (p : Point2) :
  0 < norm p -> ExactSolution_gradient p = Some (exact_gradient p).
Proof.
  intros Hr. unfold ExactSolution_gradient, exact_gradient, normalized_angle, pow.
  destruct (Rlt_dec 0 (norm p)); [reflexivity | lra].
Qed.

(** C10: for every point, [value] and [gradient] use the angle [atan2(y, x)]
    moved up by [2 pi] where it is negative; that angle lies in
    [[0, 2 pi)]; [value] is [r^(2/3) sin(2 theta / 3)] for it, with
    [r^(2/3)] what [pow] gives, and [gradient] is its formula for the same
    angle wherever [pow(r, -4/3)] is a number. *)
Theorem exact_solution_normalized_angle (p : Point2) :
  let r := norm p in
  let t := atan2 (snd p) (fst p) in
  let theta := if Rlt_dec t 0 then t + 2 * PI else t in
  0 <= theta < 2 * PI
  /\ (exists w, pow r (2 / 3) = Some w
                /\ w = (if Rlt_dec 0 r then Rpower r (2 / 3) else 0)
                /\ ExactSolution_value p = Some (w * sin (2 * theta / 3)))
  /\ ExactSolution_gradient p
     = (w ← pow r (- 4 / 3);
        Some ((2 / 3) * w * (- snd p * cos (2 * theta / 3)
                             + fst p * sin (2 * theta / 3)),
              (2 / 3) * w * (fst p * cos (2 * theta / 3)
                             + snd p * sin (2 * theta / 3)))).
Proof.
  cbv zeta. split; [exact (normalized_angle_range p) |]. split.
  - eexists. split; [apply pow_two_thirds, norm_nonneg |].
    split; [reflexivity |]. apply ExactSolution_value_exact.
  - reflexivity.
Qed.

(** On the negative [y] axis [atan2] is [- pi / 2] and the angle used is
    [3 pi / 2]. *)
Example normalized_angle_down : normalized_angle (0, -1) = 3 * PI / 2.
Proof.
  pose proof PI_RGT_0 as Hpi.
  unfold normalized_angle, atan2, M_PI. simpl.
  destruct (Rlt_dec 0 0); [lra |].
  destruct (Rlt_dec 0 (-1)); [lra |].
  destruct (Rlt_dec (-1) 0); [| lra].
  destruct (Rlt_dec (- (PI / 2)) 0); lra.
Qed.


(** *** The conjugate gradient loop *)
Section Solver.
Context `{DealII}.

(** From step [step] on, with enough fuel, the loop stops after [n] more
    iterations, within the maximum of steps: with [success] and a residual
    within the tolerance, or with [failure] at the last step allowed. *)
Lemma cg_loop_bounded (ctl : SolverControl) (fuel : nat) :
  forall (step : nat) (s : CgState),
    (step <= max_steps ctl)%nat ->
    (max_steps ctl < step + fuel)%nat ->
    exists (n : nat) (conv : SolverState),
      cg_loop ctl fuel step s
      = Some ((step + n)%nat, Nat.iter n cg_iterate s, conv)
      /\ (step + n <= max_steps ctl)%nat
      /\ ((conv = success
           /\ cg_residual (Nat.iter n cg_iterate s) <= tolerance ctl)
          \/ (conv = failure /\ (step + n)%nat = max_steps ctl
              /\ ~ cg_residual (Nat.iter n cg_iterate s) <= tolerance ctl)).
Proof.
  induction fuel as [| fuel IH]; intros step s Hle Hfuel.
  - lia.
  - cbn [cg_loop]. unfold check.
    destruct (Rle_dec (cg_residual s) (tolerance ctl)) as [Hres | Hres].
    + exists 0%nat, success. rewrite Nat.add_0_r. simpl. auto.
    + destruct (Nat.leb_spec (max_steps ctl) step) as [Hmax | Hmax].
      * exists 0%nat, failure. rewrite Nat.add_0_r. simpl.
        split; [reflexivity |]. split; [exact Hle |].
        right. split; [reflexivity |]. split; [lia | exact Hres].
      * destruct (IH (S step) (cg_iterate s)) as (n & conv & Heq & Hn & Hc);
          [lia | lia |].
        exists (S n), conv.
        rewrite Nat.iter_succ_r.
        replace (step + S n)%nat with (S step + n)%nat by lia.
        auto.
Qed.

(** C7: the one iterative solve of the program, the conjugate gradient
    solve of [solve], returns after some number [n] of iterations that is
    at most 1000, never running on: either the residual is then within
    1e-12 and [solve] returns with that iterate as the solution, or [n] is
    1000, the residual is still above 1e-12 and [solve] throws
    [NoConvergence]. *)
Theorem solve_bounded (p : LaplaceProblem) :
  let start :=
    cg_start (system_matrix p) (12 / 10) (solution p) (system_rhs p) in
  exists (n : nat) (conv : SolverState),
    cg_solve solver_control (system_matrix p) (12 / 10) (solution p)
             (system_rhs p)
    = Some (n, Nat.iter n cg_iterate start, conv)
    /\ (n <= 1000)%nat
    /\ ((conv = success
         /\ cg_residual (Nat.iter n cg_iterate start) <= 1 / 10 ^ 12
         /\ exists p',
             result (solve p) = inr p'
             /\ solution p' = cg_iterate_vector (Nat.iter n cg_iterate start))
        \/ (conv = failure /\ n = 1000%nat
            /\ ~ cg_residual (Nat.iter n cg_iterate start) <= 1 / 10 ^ 12
            /\ result (solve p) = inl "SolverControl::NoConvergence")).
Proof.
  intros start.
  destruct (cg_loop_bounded solver_control (S (max_steps solver_control))
              0 start) as (n & conv & Heq & Hn & Hc);
    [lia | lia |].
  cbn [Nat.add] in Heq, Hn, Hc.
  change (max_steps solver_control) with 1000%nat in Hn, Hc.
  change (tolerance solver_control) with (1 / 10 ^ 12) in Hc.
  exists n, conv. split; [exact Heq |]. split; [exact Hn |].
  unfold solve, cg_solve. fold start. rewrite Heq.
  destruct Hc as [(-> & Hres) | (-> & Hmax & Hres)].
  - left. split; [reflexivity |]. split; [exact Hres |].
    eexists. split; reflexivity.
  - right. split; [reflexivity |]. split; [exact Hmax |].
    split; [exact Hres | reflexivity].
Qed.

End Solver.


(** *** Interpolation and the error integrals *)

Lemma mapM_total {A B} (f : A -> option B) (g : A -> B) (l : list A) :
  (forall x, In x l -> f x = Some (g x)) -> mapM f l = Some (g <$> l).
Proof.
  induction l as [| x l IH]; intros Hf; [reflexivity |].
  cbn [mapM]. rewrite (Hf x) by (left; reflexivity).
  rewrite IH by (intros y Hy; apply Hf; right; exact Hy).
  reflexivity.
Qed.

Lemma interpolate_exact (dh : DoFHandler) :
  interpolate dh ExactSolution = Some (exact <$> support_points dh).
Proof.
  unfold interpolate. apply mapM_total.
  intros x _. apply ExactSolution_value_exact.
Qed.

Lemma sumR_nonneg (l : list R) : Forall (fun x => 0 <= x) l -> 0 <= sumR l.
Proof.
  induction 1 as [| x l Hx _ IH]; simpl; lra.
Qed.

(** Squaring the square roots of non-negative numbers gives them back. *)
Lemma sumR_sqrt_squares {A} (f : A -> R) (l : list A) :
  (forall x, In x l -> 0 <= f x) ->
  sumR ((fun y => y * y) <$> ((fun x => sqrt (f x)) <$> l)) = sumR (f <$> l).
Proof.
  induction l as [| x l IH]; intros Hf; [reflexivity |].
  rewrite !fmap_cons. cbn [sumR].
  rewrite sqrt_sqrt by (apply Hf; left; reflexivity).
  rewrite IH by (intros y Hy; apply Hf; right; exact Hy).
  reflexivity.
Qed.

Lemma cell_L2_integral_exact (u : Vector) (ldi : list nat)
    (qs : list QPoint) :
  cell_L2_integral u ExactSolution ldi qs
  = Some (sumR (L2_term u ldi <$> qs)).
Proof.
  unfold cell_L2_integral.
  rewrite (mapM_total _ (L2_term u ldi)); [reflexivity |].
  intros q _. cbn [value ExactSolution].
  rewrite ExactSolution_value_exact. cbn.
  unfold L2_term. f_equal. ring.
Qed.

Lemma cell_H1_integral_exact (u : Vector) (ldi : list nat)
    (qs : list QPoint) :
  Forall (fun q => 0 < norm (quadrature_point q)) qs ->
  cell_H1_integral u ExactSolution ldi qs
  = Some (sumR (H1_term u ldi <$> qs)).
Proof.
  intros Hqs. unfold cell_H1_integral.
  rewrite (mapM_total _ (H1_term u ldi)); [reflexivity |].
  intros q Hq. cbn [gradient ExactSolution].
  rewrite Forall_forall in Hqs.
  rewrite ExactSolution_gradient_exact
    by (apply Hqs, list_elem_of_In, Hq).
  reflexivity.
Qed.

Lemma L2_term_nonneg (u : Vector) (ldi : list nat) (q : QPoint) :
  0 <= JxW q -> 0 <= L2_term u ldi q.
Proof.
  intros Hq. unfold L2_term. apply Rmult_le_pos; [| exact Hq].
  apply pow2_ge_0.
Qed.


Lemma H1_term_nonneg (u : Vector) (ldi : list nat) (q : QPoint) :
  0 <= JxW q -> 0 <= H1_term u ldi q.
Proof.
  intros Hq. unfold H1_term, dot. cbv zeta. cbn [fst snd].
  apply Rmult_le_pos; [| exact Hq].
  apply Rplus_le_le_0_compat; apply Rle_0_sqr.
Qed.

(** *** The methods of [LaplaceProblem] *)
Section Methods.
Context `{DealII}.

Lemma error_quadrature_cell (p : LaplaceProblem) (cell : Cell)
    (ldi : list nat) (q : QPoint) :
  In (cell, ldi) (zip (active_cells (triangulation p))
                      (cell_dofs (dof_handler p))) ->
  In q (fe_values (fe_degree p) (2 * fe_degree p + 1) cell) ->
  In q (error_quadrature p).
Proof.
  intros Hc Hq. unfold error_quadrature.
  apply list_elem_of_In. apply list_elem_of_bind. exists cell.
  split; [apply list_elem_of_In; exact Hq |].
  apply list_elem_of_In in Hc. apply elem_of_zip_l in Hc. exact Hc.
Qed.

Lemma integrate_difference_L2 (p : LaplaceProblem) :
  integrate_difference (triangulation p) (dof_handler p) (fe_degree p)
    (solution p) ExactSolution (2 * fe_degree p + 1) L2_norm
  = Some ((fun '(cell, ldi) =>
             sqrt (sumR (L2_term (solution p) ldi
                           <$> fe_values (fe_degree p) (2 * fe_degree p + 1)
                                 cell)))
            <$> zip (active_cells (triangulation p))
                    (cell_dofs (dof_handler p))).
Proof.
  unfold integrate_difference. apply mapM_total.
  intros [cell ldi] _. rewrite cell_L2_integral_exact. reflexivity.
Qed.

Lemma integrate_difference_H1 (p : LaplaceProblem) :
  Forall (fun q => 0 < norm (quadrature_point q)) (error_quadrature p) ->
  integrate_difference (triangulation p) (dof_handler p) (fe_degree p)
    (solution p) ExactSolution (2 * fe_degree p + 1) H1_seminorm
  = Some ((fun '(cell, ldi) =>
             sqrt (sumR (H1_term (solution p) ldi
                           <$> fe_values (fe_degree p) (2 * fe_degree p + 1)
                                 cell)))
            <$> zip (active_cells (triangulation p))
                    (cell_dofs (dof_handler p))).
Proof.
  intros Hqs. unfold integrate_difference. apply mapM_total.
  intros [cell ldi] Hc. rewrite cell_H1_integral_exact; [reflexivity |].
  rewrite Forall_forall in Hqs |- *. intros q Hq. apply Hqs.
  apply list_elem_of_In. apply list_elem_of_In in Hq.
  eapply error_quadrature_cell; eassumption.
Qed.

(** The norm of the cell-wise norms is the root of the sum of the cell
    integrals. *)
Lemma l2_norm_cells (p : LaplaceProblem)
    (term : Vector -> list nat -> QPoint -> R) :
  (forall ldi q, In q (error_quadrature p) ->
                 0 <= term (solution p) ldi q) ->
  l2_norm ((fun '(cell, ldi) =>
              sqrt (sumR (term (solution p) ldi
                            <$> fe_values (fe_degree p) (2 * fe_degree p + 1)
                                  cell)))
             <$> zip (active_cells (triangulation p))
                     (cell_dofs (dof_handler p)))
  = sqrt (sumR ((fun '(cell, ldi) =>
                   sumR (term (solution p) ldi
                           <$> fe_values (fe_degree p) (2 * fe_degree p + 1)
                                 cell))
                  <$> zip (active_cells (triangulation p))
                          (cell_dofs (dof_handler p)))).
Proof.
  intros Hterm. unfold l2_norm. f_equal.
  rewrite <- (sumR_sqrt_squares
                (fun cl : Cell * list nat =>
                   let '(cell, ldi) := cl in
                   sumR (term (solution p) ldi
                           <$> fe_values (fe_degree p) (2 * fe_degree p + 1)
                                 cell))).
  - f_equal. f_equal. apply list_fmap_ext. intros i [cell ldi] _. reflexivity.
  - intros [cell ldi] Hc. apply sumR_nonneg.
    apply Forall_fmap, Forall_forall. intros q Hq. simpl.
    apply Hterm. apply list_elem_of_In in Hq.
    eapply error_quadrature_cell; eassumption.
Qed.

(** [compute_error] where the weights are not negative and no quadrature
    point is the corner. *)
Lemma compute_error_exact (p : LaplaceProblem) :
  Forall (fun q => 0 <= JxW q) (error_quadrature p) ->
  Forall (fun q => 0 < norm (quadrature_point q)) (error_quadrature p) ->
  compute_error p = ([], inr (discrete_L2_error p, discrete_H1_error p)).
Proof.
  intros Hw Hqs. unfold compute_error.
  rewrite integrate_difference_L2, (integrate_difference_H1 p Hqs).
  rewrite Forall_forall in Hw.
  cbn [finite ret bind app].
  rewrite (l2_norm_cells p L2_term), (l2_norm_cells p H1_term).
  - reflexivity.
  - intros ldi q Hq. apply H1_term_nonneg, Hw, list_elem_of_In, Hq.
  - intros ldi q Hq. apply L2_term_nonneg, Hw, list_elem_of_In, Hq.
Qed.

(** [compute_error] writes nothing. *)
Lemma compute_error_silent (p : LaplaceProblem) tr (errors : R * R) :
  compute_error p = (tr, inr errors) -> tr = [].
Proof.
  unfold compute_error. rewrite integrate_difference_L2. cbn [finite].
  destruct (integrate_difference _ _ _ _ _ _ H1_seminorm) as [d |];
    cbn; intros [= <- _]; reflexivity.
Qed.


(** C3: where the quadrature weights are not negative and no quadrature
    point is the corner of the domain (there the exact gradient is not
    finite), [compute_error] returns, as its L2 error, the square root of
    the sum over the cells of the quadrature of the squared difference
    between the numerical and the exact solution; it writes nothing: its
    result is the two numbers. *)
Theorem compute_error_L2 (p : LaplaceProblem) :
  Forall (fun q => 0 <= JxW q) (error_quadrature p) ->
  Forall (fun q => 0 < norm (quadrature_point q)) (error_quadrature p) ->
  exists H1_error : R,
    compute_error p = ([], inr (discrete_L2_error p, H1_error)).
Proof.
  intros Hw Hqs. exists (discrete_H1_error p).
  apply compute_error_exact; assumption.
Qed.

Lemma output_results_exact (p : LaplaceProblem) :
  let error :=
    vector_sub (exact <$> support_points (dof_handler p)) (solution p) in
  output_results p
  = ([WriteVtk ("solution-" ++ int_to_string2 (nrefine p) ++ ".vtk")
        (mkDataOut [("solution", solution p); ("error", error)]
                   (fe_degree p))],
     inr (set_system_rhs error p)).
Proof.
  unfold output_results. rewrite interpolate_exact. reflexivity.
Qed.

(** C9: [output_results] puts into [system_rhs] the nodal error, the exact
    solution at the support points minus the computed solution, and writes
    that vector as "error" into the VTK file; what [system_rhs] held before
    has no part in the result; the solution vector, the system matrix and
    the rest of the problem are as before. *)
Theorem output_results_overwrites_rhs (p : LaplaceProblem) :
  let error :=
    vector_sub (exact <$> support_points (dof_handler p)) (solution p) in
  exists (p' : LaplaceProblem) (fname : string) (data : DataOut),
    output_results p = ([WriteVtk fname data], inr p')
    /\ system_rhs p' = error
    /\ data_vectors data = [("solution", solution p); ("error", error)]
    /\ solution p' = solution p
    /\ system_matrix p' = system_matrix p
    /\ p' = set_system_rhs error p
    /\ (forall rhs : Vector,
           output_results (set_system_rhs rhs p) = output_results p).
Proof.
  intros error. do 3 eexists.
  split; [apply output_results_exact |].
  repeat (split; [reflexivity |]).
  intros rhs. rewrite !output_results_exact. reflexivity.
Qed.

(** A run that completes. *)
Lemma run_completed (fs : FileSystem) (p : LaplaceProblem) tr
    (ncell ndofs : nat) (L2_error H1_error : R) (p' : LaplaceProblem) :
  run fs p = (tr, inr (ncell, ndofs, L2_error, H1_error, p')) ->
  ncell = n_active_cells (triangulation p')
  /\ ndofs = n_dofs (dof_handler p')
  /\ compute_error p' = ([], inr (L2_error, H1_error)).
Proof.
  unfold run. intros Hrun.
  apply bind_inr in Hrun as (tr1 & p1 & tr1' & _ & Hrun & _).
  apply bind_inr in Hrun as (tr2 & p2 & tr2' & _ & Hrun & _).
  apply bind_inr in Hrun as (tr3 & p3 & tr3' & _ & Hrun & _).
  apply bind_inr in Hrun as (tr4 & p4 & tr4' & _ & Hrun & _).
  apply bind_inr in Hrun as (tr5 & [L2 H1] & tr5' & Herr & Hrun & _).
  cbn in Hrun. injection Hrun as _ <- <- <- <- <-.
  rewrite (compute_error_silent _ _ _ Herr) in Herr. auto.
Qed.

(** C4: a run of [main] that completes returns the number of active
    cells, the number of degrees of freedom and the two errors that
    [compute_error] gives for the problem as the run leaves it; the loop
    body of [main], not [run], puts the four into the convergence table,
    and leaves no trace of its own beside that of the run. *)
Theorem run_returns_tuple (fs : FileSystem) (degree n : nat)
    (table : ConvergenceTable) tr (ncell ndofs : nat)
    (L2_error H1_error : R) (p' : LaplaceProblem) :
  run fs (LaplaceProblem_new degree n)
  = (tr, inr (ncell, ndofs, L2_error, H1_error, p')) ->
  ncell = n_active_cells (triangulation p')
  /\ ndofs = n_dofs (dof_handler p')
  /\ compute_error p' = ([], inr (L2_error, H1_error))
  /\ main_iteration fs degree table n
     = (tr, inr (add_value "H1" (EDouble H1_error)
                   (add_value "L2" (EDouble L2_error)
                      (add_value "dofs" (EUnsigned ndofs)
                         (add_value "cells" (EUnsigned ncell) table))))).
Proof.
  intros Hrun.
  destruct (run_completed _ _ _ _ _ _ _ _ Hrun) as (Hc & Hd & He).
  repeat (split; [assumption |]).
  unfold main_iteration. rewrite Hrun. cbn. rewrite app_nil_r. reflexivity.
Qed.

End Methods.

(** *** The program on the stand-in library *)

Lemma cg_loop_converged `{DealII} (ctl : SolverControl) (fuel step : nat)
    (s : CgState) :
  cg_residual s <= tolerance ctl ->
  cg_loop ctl fuel step s = Some (step, s, success).
Proof.
  intros Hres. destruct fuel; cbn [cg_loop]; unfold check;
    destruct (Rle_dec _ _); tauto.
Qed.

Lemma toy_error_quadrature (p : LaplaceProblem) :
  Forall (fun q => 0 <= JxW q) (@error_quadrature toy p)
  /\ Forall (fun q => 0 < norm (quadrature_point q))
            (@error_quadrature toy p).
Proof.
  unfold error_quadrature.
  split; apply Forall_forall; intros q Hq;
    apply list_elem_of_bind in Hq as (cell & Hq & _);
    apply list_elem_of_singleton in Hq; subst q; cbn.
  - lra.
  - unfold norm. cbn. apply sqrt_lt_R0. lra.
Qed.

Lemma compute_error_L2_witness :
  Forall (fun q => 0 <= JxW q) (@error_quadrature toy toy_problem)
  /\ exists H1_error : R,
      @compute_error toy toy_problem
      = ([], inr (@discrete_L2_error toy toy_problem, H1_error)).
Proof.
  split; [apply toy_error_quadrature |].
  apply (@compute_error_L2 toy toy_problem); apply toy_error_quadrature.
Defined.

(** The stand-in solver is satisfied with its start vector. *)
Lemma toy_solve (p : LaplaceProblem) :
  @solve toy p
  = ([Cout "   "; CoutUnsigned 0;
      Cout " CG iterations needed to obtain convergence."; Endl],
     inr (mkLaplaceProblem (nrefine p) (triangulation p) (fe_degree p)
            (dof_handler p) (sparsity_pattern p) (system_matrix p)
            (solution p) (system_rhs p))).
Proof.
  unfold solve, cg_solve. rewrite cg_loop_converged; [reflexivity |].
  cbn [cg_residual toy tolerance solver_control].
  apply Rlt_le, Rdiv_lt_0_compat; [lra | apply pow_lt; lra].
Qed.

Lemma toy_run_completes :
  exists tr out, @run toy toy_fs (LaplaceProblem_new 1 0) = (tr, inr out).
Proof.
  assert (Hgrid : @make_grid_and_dofs toy toy_fs (LaplaceProblem_new 1 0)
                  = (trace (@make_grid_and_dofs toy toy_fs
                              (LaplaceProblem_new 1 0)),
                     inr toy_problem))
    by (vm_compute; reflexivity).
  assert (Hasm : @assemble_system toy toy_problem = ([], inr toy_assembled))
    by (vm_compute; reflexivity).
  unfold run.
  eapply bind_completes; [exact Hgrid |].
  eapply bind_completes; [exact Hasm |].
  eapply bind_completes; [apply toy_solve |].
  eapply bind_completes; [apply output_results_exact |].
  eapply bind_completes;
    [apply compute_error_exact; apply toy_error_quadrature |].
  do 2 eexists. reflexivity.
Qed.

Lemma run_returns_tuple_witness :
  exists tr ncell ndofs L2_error H1_error p',
    @run toy toy_fs (LaplaceProblem_new 1 0)
    = (tr, inr (ncell, ndofs, L2_error, H1_error, p'))
    /\ ncell = n_active_cells (triangulation p')
    /\ ndofs = n_dofs (dof_handler p').
Proof.
  destruct toy_run_completes as (tr & [[[[ncell ndofs] L2] H1] p'] & Hrun).
  exists tr, ncell, ndofs, L2, H1, p'.
  split; [exact Hrun |].
  destruct (@run_returns_tuple toy toy_fs 1 0 (mkConvergenceTable [] [])
              tr ncell ndofs L2 H1 p' Hrun) as (Hc & Hd & _).
  split; assumption.
Defined.

End LaplaceFacts.

(** * Further properties *)

(** ** The driver of the 1-D solver, path by path *)
Section Main1dPaths.
Import Main1d.
Context `{Headers}.

Lemma argc_of_lookup (argv : list string) (f : string) :
  argv !! 1%nat = Some f -> (Z.of_nat (length argv) <? 2)%Z = false.
Proof.
  intros Hf. apply lookup_lt_Some in Hf.
  apply Z.ltb_ge. lia.
Qed.

(** X1: whenever [main] returns, it returns 0: no path of the driver gives
    a failure code to the caller. *)
Theorem main_returns_zero (fs : FileSystem) (argv : list string)
    (code : Z) :
  outcome (main fs argv) = Exit code -> code = 0%Z.
Proof.
  unfold main. cbv zeta.
  destruct (Z.of_nat (length argv) <? 2)%Z; [cbn; congruence |].
  destruct (argv !! 1%nat) as [filename |]; cbn; [| discriminate].
  destruct (parse_input _ _ _) as [e | ph]; cbn; [discriminate |].
  destruct (parse_parameters ph) as [e | cfg]; cbn; [discriminate |].
  destruct (get ph "test case") as [e | name]; cbn; [discriminate |].
  destruct (get_test_case name) as [e | tc]; cbn; [discriminate |].
  congruence.
Qed.

(** X2: of its arguments [main] reads the second one only: the program
    name and whatever follows the parameter file change nothing. *)
Theorem main_reads_second_argument (fs : FileSystem)
    (a b f : string) (rest : list string) :
  main fs (a :: f :: rest) = main fs [b; f].
Proof.
  unfold main. cbv zeta.
  rewrite (argc_of_lookup (a :: f :: rest) f) by reflexivity.
  rewrite (argc_of_lookup [b; f] f) by reflexivity.
  reflexivity.
Qed.


(** X4: when the parameter file cannot be read into the handler, [main]
    ends with that exception right after the attempt: nothing is printed,
    no problem is constructed. *)
Theorem main_parse_failure (fs : FileSystem) (argv : list string)
    (filename : string) (e : exn) :
  argv !! 1%nat = Some filename ->
  parse_input fs filename (declare_parameters ∅) = inl e ->
  main fs argv = ([ParseInput filename], inl e).
Proof.
  intros Hf Hph. unfold main. cbv zeta.
  rewrite (argc_of_lookup argv filename Hf), Hf. cbn.
  rewrite Hph. reflexivity.
Qed.

(** X5: when the file is read but the test case it names is refused,
    [main] has printed the parsed parameters and ends with that exception
    before any problem is constructed. *)
Theorem main_unknown_test_case (fs : FileSystem) (argv : list string)
    (filename name : string) (ph : ParameterHandler) (cfg : Parameter_t)
    (e : exn) :
  argv !! 1%nat = Some filename ->
  parse_input fs filename (declare_parameters ∅) = inr ph ->
  parse_parameters ph = inr cfg ->
  get ph "test case" = inr name ->
  get_test_case name = inl e ->
  main fs argv = ([ParseInput filename; PrintParameters ph], inl e).
Proof.
  intros Hf Hph Hcfg Hname He. unfold main. cbv zeta.
  rewrite (argc_of_lookup argv filename Hf), Hf. cbn.
  rewrite Hph. cbn. rewrite Hcfg. cbn. rewrite Hname. cbn. rewrite He.
  reflexivity.
Qed.

End Main1dPaths.

Section Main1dPathRuns.
Import Main1d.

Lemma main_returns_zero_witness :
  outcome (@main spec_headers disk ["dg"; "input.prm"]) = Exit 0
  /\ 0%Z = 0%Z.
Proof.
  assert (Ho : outcome (@main spec_headers disk ["dg"; "input.prm"])
               = Exit 0) by reflexivity.
  split; [exact Ho |].
  symmetry.
  exact (@main_returns_zero spec_headers disk ["dg"; "input.prm"] 0 Ho).
Defined.


Lemma main_parse_failure_witness :
  @main spec_headers disk ["dg"; "nofile.prm"]
  = ([@ParseInput spec_headers "nofile.prm"], inl "ExcFileNotOpen").
Proof.
  apply (@main_parse_failure spec_headers disk ["dg"; "nofile.prm"]
           "nofile.prm" "ExcFileNotOpen"); reflexivity.
Defined.

Lemma main_unknown_test_case_witness :
  outcome (@main spec_headers disk_bad ["dg"; "bad.prm"])
  = Uncaught "Unknown test case".
Proof.
  destruct (@parse_input disk_bad "bad.prm" (spec_declare_parameters ∅))
    as [e | ph] eqn:Hph; [discriminate Hph |].
  destruct (spec_parse_parameters ph) as [e | cfg] eqn:Hcfg.
  { revert Hcfg. injection Hph as <-. discriminate. }
  rewrite (@main_unknown_test_case spec_headers disk_bad ["dg"; "bad.prm"]
             "bad.prm" "nope" ph cfg "Unknown test case");
    try reflexivity; try assumption.
  - injection Hph as <-. reflexivity.
Defined.

End Main1dPathRuns.

(** ** The exact solution near the corner and on the domain *)
Section ExactSolutionFacts.
Import Laplace.
Local Open Scope R_scope.

Lemma norm_zero (p : Point2) : norm p = 0 <-> p = (0, 0).
Proof.
  destruct p as [x y]. unfold norm. cbn [fst snd]. split.
  - intros Hn. apply sqrt_eq_0 in Hn; [| nra].
    assert (x = 0) by nra. assert (y = 0) by nra. congruence.
  - intros [= -> ->]. rewrite Rmult_0_l, Rplus_0_l. apply sqrt_0.
Qed.

Lemma norm_positive (p : Point2) : p <> (0, 0) -> 0 < norm p.
Proof.
  intros Hp. destruct (norm_nonneg p) as [Hlt | Heq]; [exact Hlt |].
  exfalso. apply Hp. apply norm_zero. symmetry. exact Heq.
Qed.

(** X6: [gradient] is no finite number at the corner of the domain and
    nowhere else; [value] is 0 there. *)
Theorem gradient_singular_at_corner (p : Point2) :
  (ExactSolution_gradient p = None <-> p = (0, 0))
  /\ ExactSolution_value (0, 0) = Some 0.
Proof.
  split; [split |].
  - intros Hg. destruct (norm_nonneg p) as [Hlt | Heq].
    + rewrite (ExactSolution_gradient_exact p Hlt) in Hg. discriminate.
    + apply norm_zero. symmetry. exact Heq.
  - intros ->. unfold ExactSolution_gradient, pow.
    rewrite (proj2 (norm_zero (0, 0)) eq_refl).
    destruct (Rlt_dec 0 0); [lra |].
    destruct (Rlt_dec 0 (- 4 / 3)); [lra |].
    destruct (Rlt_dec (- 4 / 3) 0); [reflexivity | lra].
  - rewrite ExactSolution_value_exact. unfold exact.
    rewrite (proj2 (norm_zero (0, 0)) eq_refl).
    destruct (Rlt_dec 0 0); [lra |]. f_equal. ring.
Qed.

(** X7: everywhere the absolute value of [value] is at most [r^(2/3)]. *)
Theorem value_bounded_by_radius (p : Point2) :
  exists v : R,
    ExactSolution_value p = Some v
    /\ Rabs v <= (if Rlt_dec 0 (norm p)
                  then Rpower (norm p) (2 / 3) else 0).
Proof.
  exists (exact p). split; [apply ExactSolution_value_exact |].
  unfold exact.
  set (w := if Rlt_dec 0 (norm p) then Rpower (norm p) (2 / 3) else 0).
  assert (Hw : 0 <= w).
  { unfold w. destruct (Rlt_dec 0 (norm p)); [| lra].
    left. apply exp_pos. }
  rewrite Rabs_mult, (Rabs_pos_eq w Hw).
  pose proof (SIN_bound (2 * normalized_angle p / 3)) as [Hlo Hhi].
  assert (Rabs (sin (2 * normalized_angle p / 3)) <= 1)
    by (apply Rabs_le; lra).
  nra.
Qed.

(** X8: [value] vanishes on the two edges of the domain that meet at the
    corner: the positive [x] axis and the negative [y] axis. *)
Theorem value_zero_on_corner_edges (d : R) :
  0 < d ->
  ExactSolution_value (d, 0) = Some 0
  /\ ExactSolution_value (0, - d) = Some 0.
Proof.
  intros Hd. pose proof PI_RGT_0 as Hpi.
  rewrite !ExactSolution_value_exact. unfold exact, normalized_angle, atan2, M_PI.
  cbn [fst snd]. split; f_equal.
  - destruct (Rlt_dec 0 d); [| lra].
    replace (0 / d) with 0 by (unfold Rdiv; ring). rewrite atan_0.
    destruct (Rlt_dec 0 0); [lra |].
    replace (2 * 0 / 3) with 0 by (unfold Rdiv; ring).
    rewrite sin_0. ring.
  - destruct (Rlt_dec 0 0); [lra |].
    destruct (Rlt_dec 0 (- d)); [lra |].
    destruct (Rlt_dec (- d) 0); [| lra].
    destruct (Rlt_dec (- (PI / 2)) 0); [| lra].
    replace (2 * (- (PI / 2) + 2 * PI) / 3) with PI by (unfold Rdiv; field).
    rewrite sin_PI. ring.
Qed.

Lemma value_zero_on_corner_edges_witness :
  ExactSolution_value (1, 0) = Some 0
  /\ ExactSolution_value (0, - 1) = Some 0.
Proof. apply (value_zero_on_corner_edges 1). lra. Defined.

(** X9: away from the corner [gradient] is a number and its length is
    [(2/3) r^(-1/3)]: the square of the length is [(4/9) r^(-2/3)]. *)
Theorem gradient_length (p : Point2) :
  p <> (0, 0) ->
  exists g : Tensor1,
    ExactSolution_gradient p = Some g
    /\ dot g g = 4 / 9 * Rpower (norm p) (- 2 / 3).
Proof.
  intros Hp. pose proof (norm_positive p Hp) as Hr.
  exists (exact_gradient p).
  split; [apply ExactSolution_gradient_exact, Hr |].
  unfold exact_gradient, dot. cbv zeta. cbn [fst snd].
  set (t := 2 * normalized_angle p / 3).
  set (w := Rpower (norm p) (- 4 / 3)).
  assert (Hrr : norm p * norm p = fst p * fst p + snd p * snd p).
  { unfold norm. apply sqrt_sqrt. nra. }
  assert (Hsc : sin t * sin t + cos t * cos t = 1).
  { pose proof (sin2_cos2 t) as Hs. unfold Rsqr in Hs. exact Hs. }
  assert (Hw : w * w * (norm p * norm p) = Rpower (norm p) (- 2 / 3)).
  { unfold w. rewrite <- (Rpower_1 (norm p) Hr) at 3 4.
    rewrite <- !Rpower_plus. f_equal. field. }
  rewrite <- Hw, Hrr.
  transitivity (4 / 9 * (w * w)
                * ((fst p * fst p + snd p * snd p)
                   * (sin t * sin t + cos t * cos t))); [field |].
  rewrite Hsc. ring.
Qed.

Lemma gradient_length_witness :
  (1, 0) <> (0, 0)
  /\ exists g : Tensor1,
      ExactSolution_gradient (1, 0) = Some g
      /\ dot g g = 4 / 9 * Rpower (norm (1, 0)) (- 2 / 3).
Proof.
  assert (Hp : ((1, 0) : Point2) <> (0, 0)).
  { intros [= H1]. lra. }
  split; [exact Hp |]. exact (gradient_length (1, 0) Hp).
Defined.

Lemma normalized_angle_on_domain (p : Point2) :
  ~ (0 < fst p /\ snd p < 0) -> normalized_angle p <= 3 * PI / 2.
Proof.
  intros Hq. pose proof PI_RGT_0 as Hpi.
  destruct p as [x y]. cbn [fst snd] in Hq.
  pose proof (atan_bound (y / x)) as Hb.
  unfold normalized_angle, atan2, M_PI. cbn [fst snd].
  destruct (Rlt_dec 0 x) as [Hx | Hx].
  - assert (Hy : 0 <= y) by lra.
    assert (Hq' : 0 <= y / x).
    { unfold Rdiv. apply Rmult_le_pos; [exact Hy |].
      left. apply Rinv_0_lt_compat. exact Hx. }
    assert (0 <= atan (y / x)).
    { rewrite <- atan_0. destruct Hq' as [Hlt | Heq].
      - left. apply atan_increasing. exact Hlt.
      - rewrite <- Heq. lra. }
    destruct (Rlt_dec (atan (y / x)) 0); lra.
  - destruct (Rlt_dec x 0) as [Hx' | Hx'].
    + destruct (Rle_dec 0 y).
      * destruct (Rlt_dec (atan (y / x) + PI) 0); lra.
      * destruct (Rlt_dec (atan (y / x) - PI) 0); lra.
    + destruct (Rlt_dec 0 y).
      * destruct (Rlt_dec (PI / 2) 0); lra.
      * destruct (Rlt_dec y 0).
        -- destruct (Rlt_dec (- (PI / 2)) 0); lra.
        -- destruct (Rlt_dec 0 0); lra.
Qed.

(** X10: [value] is not negative on the domain, that is off the open
    fourth quadrant. *)
Theorem value_nonnegative_on_domain (p : Point2) :
  ~ (0 < fst p /\ snd p < 0) ->
  exists v : R, ExactSolution_value p = Some v /\ 0 <= v.
Proof.
  intros Hq. exists (exact p).
  split; [apply ExactSolution_value_exact |].
  pose proof PI_RGT_0 as Hpi.
  pose proof (normalized_angle_range p) as [Hlo _].
  pose proof (normalized_angle_on_domain p Hq) as Hhi.
  unfold exact. apply Rmult_le_pos.
  - destruct (Rlt_dec 0 (norm p)); [| lra]. left. apply exp_pos.
  - apply sin_ge_0; lra.
Qed.

Lemma value_nonnegative_on_domain_witness :
  ~ (0 < fst ((- 1, 1) : Point2) /\ snd ((- 1, 1) : Point2) < 0)
  /\ exists v : R, ExactSolution_value (- 1, 1) = Some v /\ 0 <= v.
Proof.
  assert (Hq : ~ (0 < fst ((- 1, 1) : Point2)
                  /\ snd ((- 1, 1) : Point2) < 0)).
  { cbn [fst snd]. lra. }
  split; [exact Hq |]. exact (value_nonnegative_on_domain (- 1, 1) Hq).
Defined.


Lemma atan2_scale (c y x : R) :
  0 < c -> atan2 (c * y) (c * x) = atan2 y x.
Proof.
  intros Hc. unfold atan2.
  assert (Hdiv : x <> 0 -> c * y / (c * x) = y / x)
    by (intros Hx; field; lra).
  destruct (Rlt_dec 0 x) as [Hx | Hx];
    destruct (Rlt_dec 0 (c * x)) as [Hcx | Hcx]; try nra.
  - rewrite Hdiv by lra. reflexivity.
  - destruct (Rlt_dec x 0) as [Hx' | Hx'];
      destruct (Rlt_dec (c * x) 0) as [Hcx' | Hcx']; try nra.
    + rewrite Hdiv by lra.
      destruct (Rle_dec 0 y); destruct (Rle_dec 0 (c * y));
        try nra; reflexivity.
    + destruct (Rlt_dec 0 y); destruct (Rlt_dec 0 (c * y));
        try nra; try reflexivity.
      destruct (Rlt_dec y 0); destruct (Rlt_dec (c * y) 0);
        try nra; reflexivity.
Qed.

Lemma norm_scale (c : R) (p : Point2) :
  0 < c -> norm (c * fst p, c * snd p) = c * norm p.
Proof.
  intros Hc. unfold norm. cbn [fst snd].
  replace (c * fst p * (c * fst p) + c * snd p * (c * snd p))
    with (c * c * (fst p * fst p + snd p * snd p)) by ring.
  rewrite sqrt_mult by nra.
  rewrite sqrt_square by lra. reflexivity.
Qed.

(** X24: [value] is homogeneous of degree 2/3: at a point moved away from
    the corner by the factor [c] it is [c^(2/3)] times as large. *)
Theorem value_homogeneous (c : R) (p : Point2) :
  0 < c ->
  exists v : R,
    ExactSolution_value p = Some v
    /\ ExactSolution_value (c * fst p, c * snd p)
       = Some (Rpower c (2 / 3) * v).
Proof.
  intros Hc. exists (exact p).
  split; [apply ExactSolution_value_exact |].
  rewrite ExactSolution_value_exact. f_equal.
  unfold exact, normalized_angle. cbn [fst snd].
  rewrite (atan2_scale c (snd p) (fst p) Hc), (norm_scale c p Hc).
  pose proof (norm_nonneg p) as Hr.
  destruct (Rlt_dec 0 (norm p)) as [Hpos | Hzero];
    destruct (Rlt_dec 0 (c * norm p)) as [Hcpos | Hczero]; try nra.
  rewrite <- Rpower_mult_distr by assumption. ring.
Qed.

Lemma value_homogeneous_witness :
  exists v : R,
    ExactSolution_value (1, 1) = Some v
    /\ ExactSolution_value (8 * 1, 8 * 1) = Some (Rpower 8 (2 / 3) * v).
Proof. apply (value_homogeneous 8 (1, 1)). lra. Defined.

End ExactSolutionFacts.

(** ** The local matrix *)
Section CellMatrixFacts.
Import Laplace.
Local Open Scope R_scope.

Lemma sumR_fmap_ext {A} (f g : A -> R) (l : list A) :
  (forall x, In x l -> f x = g x) -> sumR (f <$> l) = sumR (g <$> l).
Proof.
  induction l as [| x l IH]; intros Hfg; [reflexivity |].
  rewrite !fmap_cons. cbn [sumR].
  rewrite (Hfg x) by (left; reflexivity).
  rewrite IH by (intros y Hy; apply Hfg; right; exact Hy).
  reflexivity.
Qed.

Lemma sumR_fmap_plus {A} (f g : A -> R) (l : list A) :
  sumR ((fun x => f x + g x) <$> l) = sumR (f <$> l) + sumR (g <$> l).
Proof.
  induction l as [| x l IH]; [cbn; ring |].
  rewrite !fmap_cons. cbn [sumR]. rewrite IH. ring.
Qed.

Lemma sumR_fmap_scale {A} (c : R) (f : A -> R) (l : list A) :
  sumR ((fun x => c * f x) <$> l) = c * sumR (f <$> l).
Proof.
  induction l as [| x l IH]; [cbn; ring |].
  rewrite !fmap_cons. cbn [sumR]. rewrite IH. ring.
Qed.

Lemma sumR_fmap_zero {A} (l : list A) : sumR ((fun _ => 0) <$> l) = 0.
Proof.
  induction l as [| x l IH]; [reflexivity |].
  rewrite fmap_cons. cbn [sumR]. rewrite IH. ring.
Qed.

(** The double sum of the products is the square of the sum. *)
Lemma sumR_products (a : nat -> R) (l : list nat) :
  sumR ((fun i => sumR ((fun j => a i * a j) <$> l)) <$> l)
  = sumR (a <$> l) * sumR (a <$> l).
Proof.
  rewrite (sumR_fmap_ext _ (fun i => sumR (a <$> l) * a i)).
  - apply sumR_fmap_scale.
  - intros i _. rewrite sumR_fmap_scale. ring.
Qed.

(** X13: the local matrix is symmetric. *)
Theorem cell_matrix_symmetric (qs : list QPoint) (i j : nat) :
  cell_matrix qs i j = cell_matrix qs j i.
Proof.
  unfold cell_matrix. apply sumR_fmap_ext. intros q _.
  unfold dot. ring.
Qed.

Lemma cell_matrix_cons (q : QPoint) (qs : list QPoint) (i j : nat) :
  cell_matrix (q :: qs) i j
  = dot (nth i (shape_grad q) (0, 0)) (nth j (shape_grad q) (0, 0)) * JxW q
    + cell_matrix qs i j.
Proof. reflexivity. Qed.

(** One quadrature point gives the weighted square of the gradient of the
    finite element function with the coefficients [x]. *)
Lemma cell_energy_cons (q : QPoint) (qs : list QPoint) (n : nat)
    (x : nat -> R) :
  cell_energy (q :: qs) n x
  = JxW q
    * (sumR ((fun i => x i * fst (nth i (shape_grad q) (0, 0))) <$> seq 0 n)
       * sumR ((fun i => x i * fst (nth i (shape_grad q) (0, 0)))
                 <$> seq 0 n)
       + sumR ((fun i => x i * snd (nth i (shape_grad q) (0, 0)))
                 <$> seq 0 n)
         * sumR ((fun i => x i * snd (nth i (shape_grad q) (0, 0)))
                   <$> seq 0 n))
    + cell_energy qs n x.
Proof.
  unfold cell_energy.
  set (a := fun i => x i * fst (nth i (shape_grad q) (0, 0))).
  set (b := fun i => x i * snd (nth i (shape_grad q) (0, 0))).
  rewrite <- (sumR_products a), <- (sumR_products b).
  rewrite <- !sumR_fmap_plus, <- sumR_fmap_scale, <- sumR_fmap_plus.
  apply sumR_fmap_ext. intros i _.
  rewrite <- !sumR_fmap_plus, <- sumR_fmap_scale, <- sumR_fmap_plus.
  apply sumR_fmap_ext. intros j _.
  rewrite cell_matrix_cons. unfold a, b, dot. ring.
Qed.

(** X14: with weights that are not negative the local matrix is positive
    semidefinite. *)
Theorem cell_matrix_positive_semidefinite (qs : list QPoint) (n : nat)
    (x : nat -> R) :
  Forall (fun q => 0 <= JxW q) qs -> 0 <= cell_energy qs n x.
Proof.
  induction 1 as [| q qs Hq _ IH].
  - unfold cell_energy.
    rewrite (sumR_fmap_ext _ (fun _ => 0)); [rewrite sumR_fmap_zero; lra |].
    intros i _.
    rewrite (sumR_fmap_ext _ (fun _ => 0)); [apply sumR_fmap_zero |].
    intros j _. unfold cell_matrix. cbn. ring.
  - rewrite cell_energy_cons.
    apply Rplus_le_le_0_compat; [| exact IH].
    apply Rmult_le_pos; [exact Hq |].
    apply Rplus_le_le_0_compat; apply Rle_0_sqr.
Qed.

Lemma cell_matrix_positive_semidefinite_witness :
  Forall (fun q => 0 <= JxW q) (@fe_values toy 1 2 [])
  /\ 0 <= cell_energy (@fe_values toy 1 2 []) 4 (fun i => INR i).
Proof.
  assert (Hw : Forall (fun q => 0 <= JxW q) (@fe_values toy 1 2 [])).
  { repeat constructor. cbn. lra. }
  split; [exact Hw |].
  exact (cell_matrix_positive_semidefinite _ 4 (fun i => INR i) Hw).
Defined.

End CellMatrixFacts.

(** ** Grid, pattern and assembly *)
Section AssemblyFacts.
Import Laplace.
Local Open Scope R_scope.
Context `{DealII}.

Lemma run_without_grid_file (fs : FileSystem) (p : LaplaceProblem) :
  fs !! "Gamma.msh" = None ->
  run fs p = ([], inl "Grid file not found")
  /\ main fs = ([], inl "Grid file not found").
Proof.
  intros Hfs.
  assert (Hrun : forall q, run fs q = ([], inl "Grid file not found")).
  { intros q. unfold run, make_grid_and_dofs. rewrite Hfs. reflexivity. }
  split; [apply Hrun |].
  unfold main. cbn [seq main_loop]. unfold main_iteration.
  rewrite Hrun. reflexivity.
Qed.

(** X11: without the grid file nothing happens: [run] and [main] end with
    "Grid file not found" before any output. *)
Theorem missing_grid_file (fs : FileSystem) (p : LaplaceProblem) :
  fs !! "Gamma.msh" = None ->
  run fs p = ([], inl "Grid file not found")
  /\ main fs = ([], inl "Grid file not found").
Proof. apply run_without_grid_file. Qed.

Lemma matrix_reinit_lookup (pattern : list (nat * nat)) (ij : nat * nat) :
  matrix_reinit pattern !! ij
  = if decide (ij ∈ pattern) then Some 0 else None.
Proof.
  unfold matrix_reinit.
  set (l := (fun ij0 : nat * nat => (ij0, 0)) <$> pattern).
  assert (Hfst : l.*1 = pattern).
  { unfold l. rewrite <- list_fmap_compose. apply list_fmap_id. }
  destruct (decide (ij ∈ pattern)) as [Hin | Hn].
  - destruct (list_to_map l !! ij) as [x |] eqn:Hx.
    + apply elem_of_list_to_map_2 in Hx.
      unfold l in Hx. apply list_elem_of_fmap in Hx as (k & [= -> ->] & _).
      reflexivity.
    + apply not_elem_of_list_to_map in Hx. rewrite Hfst in Hx. tauto.
  - apply not_elem_of_list_to_map. rewrite Hfst. exact Hn.
Qed.

Lemma make_grid_and_dofs_inv (fs : FileSystem)
    (p p' : LaplaceProblem) tr :
  make_grid_and_dofs fs p = (tr, inr p') ->
  solution p' = replicate (n_dofs (dof_handler p')) 0
  /\ system_rhs p' = replicate (n_dofs (dof_handler p')) 0
  /\ sparsity_pattern p' = make_sparsity_pattern (dof_handler p')
  /\ (forall ij : nat * nat,
         system_matrix p' !! ij
         = if decide (ij ∈ sparsity_pattern p') then Some 0 else None)
  /\ nrefine p' = nrefine p
  /\ fe_degree p' = fe_degree p
  /\ tr = [Cout "   Number of active cells: ";
           CoutUnsigned (n_active_cells (triangulation p')); Endl;
           Cout "   Total number of cells: ";
           CoutUnsigned (n_cells (triangulation p')); Endl;
           Cout "   Number of degrees of freedom: ";
           CoutUnsigned (n_dofs (dof_handler p')); Endl].
Proof.
  unfold make_grid_and_dofs.
  destruct (fs !! "Gamma.msh") as [gfile |]; cbn; [| discriminate].
  destruct (read_msh gfile) as [e | tria]; cbn; [discriminate |].
  intros [= <- <-]. cbn.
  repeat (split; [reflexivity |]).
  split; [apply matrix_reinit_lookup |].
  repeat (split; [reflexivity |]). reflexivity.
Qed.

(** X12: after [make_grid_and_dofs] the solution and the right hand side
    are zero vectors with one entry per degree of freedom, the matrix has
    a zero exactly at the pairs of the sparsity pattern of the degrees of
    freedom, and the three numbers printed are the cell and degree of
    freedom counts of the problem. *)
Theorem make_grid_and_dofs_postcondition (fs : FileSystem)
    (p p' : LaplaceProblem) tr :
  make_grid_and_dofs fs p = (tr, inr p') ->
  solution p' = replicate (n_dofs (dof_handler p')) 0
  /\ system_rhs p' = replicate (n_dofs (dof_handler p')) 0
  /\ sparsity_pattern p' = make_sparsity_pattern (dof_handler p')
  /\ (forall ij : nat * nat,
         system_matrix p' !! ij
         = if decide (ij ∈ sparsity_pattern p') then Some 0 else None)
  /\ nrefine p' = nrefine p
  /\ fe_degree p' = fe_degree p
  /\ tr = [Cout "   Number of active cells: ";
           CoutUnsigned (n_active_cells (triangulation p')); Endl;
           Cout "   Total number of cells: ";
           CoutUnsigned (n_cells (triangulation p')); Endl;
           Cout "   Number of degrees of freedom: ";
           CoutUnsigned (n_dofs (dof_handler p')); Endl].
Proof. apply make_grid_and_dofs_inv. Qed.

(** *** The assembly stays in the pattern *)

Lemma covers_reinit (dh : DoFHandler) :
  covers (matrix_reinit (make_sparsity_pattern dh)) dh.
Proof.
  intros ldi i j Hl Hi Hj. rewrite matrix_reinit_lookup.
  destruct (decide ((i, j) ∈ make_sparsity_pattern dh)) as [_ | Hn];
    [eexists; reflexivity |].
  exfalso. apply Hn. unfold make_sparsity_pattern.
  apply list_elem_of_bind. exists ldi.
  split; [| apply list_elem_of_In; exact Hl].
  apply list_elem_of_bind. exists i.
  split; [| apply list_elem_of_In; exact Hi].
  apply list_elem_of_bind. exists j.
  split; [apply list_elem_of_singleton; reflexivity
         | apply list_elem_of_In; exact Hj].
Qed.

Lemma covers_zero (m : SparseMatrix) (dh : DoFHandler) :
  covers m dh -> covers (matrix_zero m) dh.
Proof.
  intros Hm ldi i j Hl Hi Hj. unfold matrix_zero.
  rewrite lookup_fmap. destruct (Hm ldi i j Hl Hi Hj) as [x ->].
  eexists. reflexivity.
Qed.

Lemma covers_add (m : SparseMatrix) (dh : DoFHandler) (ldi : list nat)
    (i j : nat) (x : R) :
  covers m dh -> In ldi (cell_dofs dh) -> In i ldi -> In j ldi ->
  exists m', matrix_add i j x m = inr m' /\ covers m' dh.
Proof.
  intros Hm Hl Hi Hj. unfold matrix_add.
  destruct (Hm ldi i j Hl Hi Hj) as [y ->].
  eexists. split; [reflexivity |].
  intros ldi' i' j' Hl' Hi' Hj'.
  apply lookup_insert_is_Some'. right. apply (Hm ldi' i' j'); assumption.
Qed.

Lemma add_local_covers (dh : DoFHandler) (ldi : list nat)
    (qs : list QPoint) (n : nat) (m : SparseMatrix) :
  covers m dh -> In ldi (cell_dofs dh) -> length ldi = n ->
  exists m', add_local ldi qs n m = inr m' /\ covers m' dh.
Proof.
  intros Hm Hl Hn. unfold add_local.
  assert (Hpairs : Forall (fun ij : nat * nat =>
                             (fst ij < n)%nat /\ (snd ij < n)%nat)
                          (i ← seq 0 n; j ← seq 0 n; [(i, j)])).
  { apply Forall_forall. intros [i j] Hij.
    apply list_elem_of_bind in Hij as (i' & Hij & Hi').
    apply list_elem_of_bind in Hij as (j' & Hij & Hj').
    apply list_elem_of_singleton in Hij. injection Hij as -> ->.
    apply list_elem_of_In, in_seq in Hi'.
    apply list_elem_of_In, in_seq in Hj'. cbn. lia. }
  revert m Hm.
  induction Hpairs as [| [i j] pairs [Hi Hj] _ IH]; intros m Hm.
  - exists m. split; [reflexivity | exact Hm].
  - cbn [foldl fst snd] in *.
    destruct (covers_add m dh ldi (nth i ldi O) (nth j ldi O)
                (cell_matrix qs i j) Hm Hl) as (m' & -> & Hm').
    + apply nth_In. lia.
    + apply nth_In. lia.
    + apply IH. exact Hm'.
Qed.

Lemma assemble_cells_covers (dh : DoFHandler) (degree nq : nat)
    (cells : list (Cell * list nat)) (m : SparseMatrix) :
  Forall (fun cl : Cell * list nat =>
            In (snd cl) (cell_dofs dh)
            /\ length (snd cl) = dofs_per_cell degree) cells ->
  covers m dh ->
  exists m',
    foldl (fun acc '(cell, ldi) =>
             match acc with
             | inl e => inl e
             | inr m =>
                 add_local ldi (fe_values degree nq cell)
                           (dofs_per_cell degree) m
             end) (inr m) cells = inr m'
    /\ covers m' dh.
Proof.
  intros Hcells. revert m.
  induction Hcells as [| [cell ldi] cells [Hl Hn] _ IH]; intros m Hm.
  - exists m. split; [reflexivity | exact Hm].
  - cbn [foldl snd] in *.
    destruct (add_local_covers dh ldi (fe_values degree nq cell)
                (dofs_per_cell degree) m Hm Hl Hn) as (m' & -> & Hm').
    apply IH. exact Hm'.
Qed.

Lemma assemble_system_completes (fs : FileSystem)
    (p p1 : LaplaceProblem) tr (boundary_values : gmap nat R) :
  make_grid_and_dofs fs p = (tr, inr p1) ->
  Forall (fun ldi => length ldi = dofs_per_cell (fe_degree p1))
         (cell_dofs (dof_handler p1)) ->
  interpolate_boundary_values (dof_handler p1) 0 ExactSolution
  = inr boundary_values ->
  exists p2,
    assemble_system p1 = ([], inr p2)
    /\ triangulation p2 = triangulation p1
    /\ dof_handler p2 = dof_handler p1
    /\ sparsity_pattern p2 = sparsity_pattern p1
    /\ nrefine p2 = nrefine p1
    /\ fe_degree p2 = fe_degree p1.
Proof.
  intros Hgrid Hlen Hbv.
  destruct (make_grid_and_dofs_inv fs p p1 tr Hgrid)
    as (_ & _ & Hpat & Hmat & _).
  assert (Hcov : covers (matrix_zero (system_matrix p1)) (dof_handler p1)).
  { apply covers_zero. intros ldi i j Hl Hi Hj.
    rewrite Hmat, Hpat.
    pose proof (covers_reinit (dof_handler p1) ldi i j Hl Hi Hj) as Hc.
    rewrite matrix_reinit_lookup in Hc. exact Hc. }
  destruct (assemble_cells_covers (dof_handler p1) (fe_degree p1)
              (2 * fe_degree p1)
              (zip (active_cells (triangulation p1))
                   (cell_dofs (dof_handler p1)))
              (matrix_zero (system_matrix p1))) as (m' & Hm' & _);
    [| exact Hcov |].
  { apply Forall_forall. intros [cell ldi] Hin.
    apply elem_of_zip_r in Hin. cbn [snd].
    split; [apply list_elem_of_In; exact Hin |].
    rewrite Forall_forall in Hlen. apply Hlen. exact Hin. }
  unfold assemble_system. rewrite Hm'. cbn. rewrite Hbv. cbn.
  destruct (apply_boundary_values _ _ _ _) as [[m'' x] b].
  eexists. split; [reflexivity |]. cbn. auto.
Qed.

(** X15: the pattern that [make_grid_and_dofs] builds holds every entry
    that [assemble_system] adds to: with as many degrees of freedom in
    each cell as the element has, and boundary values at hand, the
    assembly goes through without output and leaves grid, degrees of
    freedom and pattern alone. *)
Theorem assemble_system_within_pattern (fs : FileSystem)
    (p p1 : LaplaceProblem) tr (boundary_values : gmap nat R) :
  make_grid_and_dofs fs p = (tr, inr p1) ->
  Forall (fun ldi => length ldi = dofs_per_cell (fe_degree p1))
         (cell_dofs (dof_handler p1)) ->
  interpolate_boundary_values (dof_handler p1) 0 ExactSolution
  = inr boundary_values ->
  exists p2,
    assemble_system p1 = ([], inr p2)
    /\ triangulation p2 = triangulation p1
    /\ dof_handler p2 = dof_handler p1
    /\ sparsity_pattern p2 = sparsity_pattern p1
    /\ nrefine p2 = nrefine p1
    /\ fe_degree p2 = fe_degree p1.
Proof. apply assemble_system_completes. Qed.

End AssemblyFacts.

Section AssemblyRuns.
Import Laplace.
Local Open Scope R_scope.

Lemma toy_grid :
  @make_grid_and_dofs toy toy_fs (LaplaceProblem_new 1 0)
  = (trace (@make_grid_and_dofs toy toy_fs (LaplaceProblem_new 1 0)),
     inr toy_problem).
Proof. vm_compute. reflexivity. Qed.

Lemma missing_grid_file_witness :
  (∅ : FileSystem) !! "Gamma.msh" = None
  /\ @main toy ∅ = ([], inl "Grid file not found").
Proof.
  split; [reflexivity |].
  apply (@missing_grid_file toy ∅ (LaplaceProblem_new 1 0)). reflexivity.
Defined.

Lemma make_grid_and_dofs_postcondition_witness :
  solution toy_problem = replicate (n_dofs (dof_handler toy_problem)) 0
  /\ system_matrix toy_problem !! (2%nat, 3%nat) = Some 0.
Proof.
  destruct (@make_grid_and_dofs_postcondition toy toy_fs
              (LaplaceProblem_new 1 0) toy_problem _ toy_grid)
    as (Hs & _ & _ & Hm & _).
  split; [exact Hs |]. rewrite Hm. reflexivity.
Defined.

Lemma assemble_system_within_pattern_witness :
  exists p2, @assemble_system toy toy_problem = ([], inr p2).
Proof.
  destruct (@assemble_system_within_pattern toy toy_fs
              (LaplaceProblem_new 1 0) toy_problem _ ∅ toy_grid)
    as (p2 & Hp2 & _).
  - repeat constructor.
  - reflexivity.
  - exists p2. exact Hp2.
Defined.

End AssemblyRuns.

(** ** Solving, the errors and the run as a whole *)
Section RunFacts.
Import Laplace.
Local Open Scope R_scope.
Context `{DealII}.

Lemma solve_cases (p : LaplaceProblem) :
  (exists (n : nat) (x : Vector),
      (n <= 1000)%nat
      /\ solve p
         = ([Cout "   "; CoutUnsigned n;
             Cout " CG iterations needed to obtain convergence."; Endl],
            inr (mkLaplaceProblem (nrefine p) (triangulation p)
                   (fe_degree p) (dof_handler p) (sparsity_pattern p)
                   (system_matrix p) x (system_rhs p))))
  \/ solve p = ([], inl "SolverControl::NoConvergence").
Proof.
  destruct (cg_loop_bounded solver_control (S (max_steps solver_control)) 0
              (cg_start (system_matrix p) (12 / 10) (solution p)
                        (system_rhs p)))
    as (n & conv & Heq & Hn & Hc); [lia | lia |].
  cbn [Nat.add] in Heq, Hn.
  change (max_steps solver_control) with 1000%nat in Hn.
  unfold solve, cg_solve. rewrite Heq.
  destruct Hc as [(-> & _) | (-> & _)].
  - left. eexists n, _. split; [exact Hn | reflexivity].
  - right. reflexivity.
Qed.

(** X16: [solve] either prints the number of iterations, at most 1000,
    and changes the solution vector only, or throws [NoConvergence] having
    printed nothing. *)
Theorem solve_outcome (p : LaplaceProblem) :
  (exists (n : nat) (x : Vector),
      (n <= 1000)%nat
      /\ solve p
         = ([Cout "   "; CoutUnsigned n;
             Cout " CG iterations needed to obtain convergence."; Endl],
            inr (mkLaplaceProblem (nrefine p) (triangulation p)
                   (fe_degree p) (dof_handler p) (sparsity_pattern p)
                   (system_matrix p) x (system_rhs p))))
  \/ solve p = ([], inl "SolverControl::NoConvergence").
Proof. apply solve_cases. Qed.

Lemma l2_norm_nonneg (v : Vector) : 0 <= l2_norm v.
Proof. apply sqrt_pos. Qed.

(** X17: where the quadrature weights are not negative and no quadrature
    point is the corner, the second number of [compute_error] is the
    square root of the sum over the cells of the quadrature of the squared
    length of the difference of the gradients. *)
Theorem compute_error_H1 (p : LaplaceProblem) :
  Forall (fun q => 0 <= JxW q) (error_quadrature p) ->
  Forall (fun q => 0 < norm (quadrature_point q)) (error_quadrature p) ->
  exists L2_error : R,
    compute_error p = ([], inr (L2_error, discrete_H1_error p)).
Proof.
  intros Hw Hqs. exists (discrete_L2_error p).
  apply compute_error_exact; assumption.
Qed.

(** X18: the two errors that [compute_error] returns are never
    negative. *)
Theorem compute_error_nonnegative (p : LaplaceProblem) tr
    (L2_error H1_error : R) :
  compute_error p = (tr, inr (L2_error, H1_error)) ->
  0 <= L2_error /\ 0 <= H1_error.
Proof.
  unfold compute_error.
  destruct (integrate_difference _ _ _ _ _ _ L2_norm) as [d |];
    cbn; [| discriminate].
  destruct (integrate_difference _ _ _ _ _ _ H1_seminorm) as [d' |];
    cbn; [| discriminate].
  intros [= _ <- <-]. split; apply l2_norm_nonneg.
Qed.

(** *** The trace of a run *)

Lemma vtk_names_app (tr1 tr2 : list Event) :
  vtk_names (tr1 ++ tr2) = (vtk_names tr1 ++ vtk_names tr2)%list.
Proof. unfold vtk_names. apply omap_app. Qed.

Lemma assemble_system_frame (p p' : LaplaceProblem) tr :
  assemble_system p = (tr, inr p') ->
  tr = [] /\ nrefine p' = nrefine p /\ fe_degree p' = fe_degree p
  /\ triangulation p' = triangulation p /\ dof_handler p' = dof_handler p.
Proof.
  unfold assemble_system.
  destruct (foldl _ _ _) as [e | m]; cbn; [discriminate |].
  destruct (interpolate_boundary_values _ _ _) as [e | bv];
    cbn; [discriminate |].
  destruct (apply_boundary_values _ _ _ _) as [[m' x] b].
  cbn. intros [= <- <-]. cbn. auto.
Qed.

Lemma solve_frame (p p' : LaplaceProblem) tr :
  solve p = (tr, inr p') ->
  vtk_names tr = [] /\ nrefine p' = nrefine p /\ fe_degree p' = fe_degree p
  /\ triangulation p' = triangulation p /\ dof_handler p' = dof_handler p.
Proof.
  destruct (solve_cases p) as [(n & x & _ & ->) | ->];
    [| discriminate].
  intros [= <- <-]. cbn. auto.
Qed.

Lemma run_trace_inv (fs : FileSystem) (p : LaplaceProblem) tr
    (ncell ndofs : nat) (L2_error H1_error : R) (p' : LaplaceProblem) :
  run fs p = (tr, inr (ncell, ndofs, L2_error, H1_error, p')) ->
  vtk_names tr
  = [("solution-" ++ int_to_string2 (nrefine p) ++ ".vtk")%string]
  /\ In (WriteVtk ("solution-" ++ int_to_string2 (nrefine p) ++ ".vtk")
           (mkDataOut [("solution", solution p');
                       ("error", system_rhs p')] (fe_degree p))) tr
  /\ system_rhs p'
     = vector_sub (exact <$> support_points (dof_handler p')) (solution p')
  /\ last tr
     = Some (Cout "-----------------------------------------------------\n").
Proof.
  unfold run. intros Hrun.
  apply bind_inr in Hrun as (tr1 & p1 & tr1' & Hgrid & Hrun & ->).
  apply bind_inr in Hrun as (tr2 & p2 & tr2' & Hasm & Hrun & ->).
  apply bind_inr in Hrun as (tr3 & p3 & tr3' & Hsolve & Hrun & ->).
  apply bind_inr in Hrun as (tr4 & p4 & tr4' & Hout & Hrun & ->).
  apply bind_inr in Hrun as (tr5 & [L2 H1] & tr5' & Herr & Hrun & ->).
  cbn in Hrun. injection Hrun as <- _ _ _ _ <-.
  apply compute_error_silent in Herr. subst tr5.
  destruct (make_grid_and_dofs_inv fs p p1 tr1 Hgrid)
    as (_ & _ & _ & _ & Hn1 & Hd1 & ->).
  destruct (assemble_system_frame p1 p2 tr2 Hasm)
    as (-> & Hn2 & Hd2 & _ & _).
  destruct (solve_frame p2 p3 tr3 Hsolve) as (Hv3 & Hn3 & Hd3 & _ & _).
  rewrite output_results_exact in Hout. injection Hout as <- <-.
  rewrite Hn3, Hn2, Hn1, Hd3, Hd2, Hd1.
  split; [| split; [| split]].
  - rewrite !vtk_names_app, Hv3. reflexivity.
  - apply in_app_iff. right. apply in_app_iff. right.
    apply in_app_iff. right. left. reflexivity.
  - reflexivity.
  - rewrite !app_assoc. apply last_snoc.
Qed.


(** X23: a run that completes has printed, first of all, the counts it
    returns: the number of active cells and the number of degrees of
    freedom on the screen are those handed back to [main]. *)
Theorem run_prints_counts (fs : FileSystem) (p : LaplaceProblem) tr
    (ncell ndofs : nat) (L2_error H1_error : R) (p' : LaplaceProblem) :
  run fs p = (tr, inr (ncell, ndofs, L2_error, H1_error, p')) ->
  exists rest : list Event,
    tr = ([Cout "   Number of active cells: "; CoutUnsigned ncell; Endl;
           Cout "   Total number of cells: ";
           CoutUnsigned (n_cells (triangulation p')); Endl;
           Cout "   Number of degrees of freedom: ";
           CoutUnsigned ndofs; Endl] ++ rest)%list.
Proof.
  unfold run. intros Hrun.
  apply bind_inr in Hrun as (tr1 & p1 & tr1' & Hgrid & Hrun & ->).
  apply bind_inr in Hrun as (tr2 & p2 & tr2' & Hasm & Hrun & ->).
  apply bind_inr in Hrun as (tr3 & p3 & tr3' & Hsolve & Hrun & ->).
  apply bind_inr in Hrun as (tr4 & p4 & tr4' & Hout & Hrun & ->).
  apply bind_inr in Hrun as (tr5 & [L2 H1] & tr5' & Herr & Hrun & ->).
  cbn in Hrun. injection Hrun as <- <- <- _ _ <-.
  destruct (make_grid_and_dofs_inv fs p p1 tr1 Hgrid)
    as (_ & _ & _ & _ & _ & _ & ->).
  destruct (assemble_system_frame p1 p2 tr2 Hasm)
    as (_ & _ & _ & Ht2 & Hh2).
  destruct (solve_frame p2 p3 tr3 Hsolve) as (_ & _ & _ & Ht3 & Hh3).
  rewrite output_results_exact in Hout. injection Hout as <- <-.
  cbn [triangulation dof_handler set_system_rhs].
  rewrite Ht3, Ht2, Hh3, Hh2. eexists. reflexivity.
Qed.

(** *** The loop of [main] *)

Lemma main_iteration_inv (fs : FileSystem) (degree n : nat)
    (t t' : ConvergenceTable) tr :
  main_iteration fs degree t n = (tr, inr t') ->
  vtk_names tr = [("solution-" ++ int_to_string2 n ++ ".vtk")%string]
  /\ exists (ncell ndofs : nat) (L2_error H1_error : R),
      t' = add_value "H1" (EDouble H1_error)
             (add_value "L2" (EDouble L2_error)
                (add_value "dofs" (EUnsigned ndofs)
                   (add_value "cells" (EUnsigned ncell) t))).
Proof.
  unfold main_iteration. intros Hit.
  apply bind_inr in Hit
    as (tr1 & [[[[ncell ndofs] L2] H1] p'] & tr2 & Hrun & Hret & ->).
  cbn in Hret. injection Hret as <- <-.
  destruct (run_trace_inv _ _ _ _ _ _ _ _ Hrun) as (Hv & _).
  rewrite app_nil_r. split; [exact Hv |].
  exists ncell, ndofs, L2, H1. reflexivity.
Qed.

Lemma column_sizes_first (t : ConvergenceTable) (a b c d : TableEntry) :
  column_sizes t = [] ->
  column_sizes (add_value "H1" d (add_value "L2" c
                  (add_value "dofs" b (add_value "cells" a t))))
  = [("cells", 1%nat); ("dofs", 1%nat); ("L2", 1%nat); ("H1", 1%nat)].
Proof.
  unfold column_sizes, add_value. cbn [columns].
  destruct (columns t); [reflexivity | discriminate].
Qed.

Lemma column_sizes_next (t : ConvergenceTable) (a b c d : TableEntry)
    (k : nat) :
  column_sizes t = [("cells", k); ("dofs", k); ("L2", k); ("H1", k)] ->
  column_sizes (add_value "H1" d (add_value "L2" c
                  (add_value "dofs" b (add_value "cells" a t))))
  = [("cells", S k); ("dofs", S k); ("L2", S k); ("H1", S k)].
Proof.
  unfold column_sizes, add_value. cbn [columns].
  destruct (columns t) as [| [k1 v1] [| [k2 v2] [| [k3 v3] [| [k4 v4] [|]]]]];
    try discriminate.
  intros [= -> H1 -> H2 -> H3 -> H4]. cbn.
  rewrite !length_app. cbn [length]. rewrite !Nat.add_1_r, H1, H2, H3, H4.
  reflexivity.
Qed.

Lemma main_loop_inv (fs : FileSystem) (degree : nat) (ns : list nat) :
  forall (t t' : ConvergenceTable) tr (k : nat),
    (k = 0%nat /\ column_sizes t = []
     \/ (0 < k)%nat
        /\ column_sizes t
           = [("cells", k); ("dofs", k); ("L2", k); ("H1", k)]) ->
    main_loop fs degree t ns = (tr, inr t') ->
    vtk_names tr
    = (fun n => ("solution-" ++ int_to_string2 n ++ ".vtk")%string) <$> ns
    /\ (ns = [] /\ t' = t
        \/ column_sizes t'
           = [("cells", (k + length ns)%nat); ("dofs", (k + length ns)%nat);
              ("L2", (k + length ns)%nat); ("H1", (k + length ns)%nat)])
    /\ formats t' = formats t.
Proof.
  induction ns as [| n ns IH]; intros t t' tr k Hk Hloop.
  - cbn in Hloop. injection Hloop as <- <-. auto.
  - cbn [main_loop] in Hloop.
    apply bind_inr in Hloop as (tr1 & t1 & tr2 & Hit & Hloop & ->).
    destruct (main_iteration_inv _ _ _ _ _ _ Hit)
      as (Hv & a & b & c & d & Ht1).
    assert (Hk1 : column_sizes t1
                  = [("cells", S k); ("dofs", S k); ("L2", S k);
                     ("H1", S k)]).
    { subst t1. destruct Hk as [[-> Hk] | [_ Hk]].
      - apply column_sizes_first. exact Hk.
      - apply column_sizes_next. exact Hk. }
    destruct (IH t1 t' tr2 (S k)) as (Hv2 & Hc2 & Hf2);
      [right; split; [lia | exact Hk1] | exact Hloop |].
    rewrite vtk_names_app, Hv, Hv2.
    split; [reflexivity |]. split.
    + right. cbn [length].
      replace (k + S (length ns))%nat with (S k + length ns)%nat by lia.
      destruct Hc2 as [[-> ->] | Hc2]; [| exact Hc2].
      rewrite Nat.add_0_r. exact Hk1.
    + rewrite Hf2. subst t1. reflexivity.
Qed.

(** X20: a [main] that returns has written the five VTK files
    [solution-00.vtk] to [solution-04.vtk], in this order, and returns
    0. *)
Theorem main_writes_five_files (fs : FileSystem) tr (code : Z) :
  main fs = (tr, inr code) ->
  vtk_names tr
  = ["solution-00.vtk"; "solution-01.vtk"; "solution-02.vtk";
     "solution-03.vtk"; "solution-04.vtk"]
  /\ code = 0%Z.
Proof.
  unfold main. intros Hmain.
  apply bind_inr in Hmain as (tr1 & t & tr2 & Hloop & Hrest & ->).
  cbn in Hrest. injection Hrest as <- <-.
  destruct (main_loop_inv fs 1 (seq 0 5) (mkConvergenceTable [] []) t tr1
              0%nat) as (Hv & _);
    [left; split; reflexivity | exact Hloop |].
  rewrite vtk_names_app, Hv. split; reflexivity.
Qed.

(** *** What goes to the table, and when *)

Lemma no_table_bind {A B} (c : M Event A) (k : A -> M Event B) :
  Forall (fun ev => writes_table ev = false) (trace c) ->
  (forall a, Forall (fun ev => writes_table ev = false) (trace (k a))) ->
  Forall (fun ev => writes_table ev = false) (trace (bind c k)).
Proof.
  intros Hc Hk. destruct c as [tr [e | a]]; cbn in *; [exact Hc |].
  specialize (Hk a). destruct (k a) as [tr' r]. cbn in *.
  apply Forall_app. split; assumption.
Qed.

Lemma compute_error_trace (p : LaplaceProblem) :
  trace (compute_error p) = [].
Proof.
  unfold compute_error.
  destruct (integrate_difference _ _ _ _ _ _ L2_norm) as [d |];
    cbn; [| reflexivity].
  destruct (integrate_difference _ _ _ _ _ _ H1_seminorm) as [d' |];
    reflexivity.
Qed.

Lemma assemble_system_trace (p : LaplaceProblem) :
  trace (assemble_system p) = [].
Proof.
  unfold assemble_system.
  destruct (foldl _ _ _) as [e | m]; cbn; [reflexivity |].
  destruct (interpolate_boundary_values _ _ _) as [e | bv];
    cbn; [reflexivity |].
  destruct (apply_boundary_values _ _ _ _) as [[m' x] b]. reflexivity.
Qed.

Lemma make_grid_and_dofs_no_table (fs : FileSystem) (p : LaplaceProblem) :
  Forall (fun ev => writes_table ev = false)
         (trace (make_grid_and_dofs fs p)).
Proof.
  unfold make_grid_and_dofs.
  destruct (fs !! "Gamma.msh") as [gfile |]; cbn; [| constructor].
  destruct (read_msh gfile) as [e | tria]; cbn; [constructor |].
  repeat constructor.
Qed.

Lemma run_no_table (fs : FileSystem) (p : LaplaceProblem) :
  Forall (fun ev => writes_table ev = false) (trace (run fs p)).
Proof.
  unfold run.
  apply no_table_bind; [apply make_grid_and_dofs_no_table | intros p1].
  apply no_table_bind; [rewrite assemble_system_trace; constructor
                       | intros p2].
  apply no_table_bind; [| intros p3].
  { destruct (solve_cases p2) as [(n & x & _ & ->) | ->];
      cbn; repeat constructor. }
  apply no_table_bind; [rewrite output_results_exact; repeat constructor
                       | intros p4].
  apply no_table_bind; [rewrite compute_error_trace; constructor
                       | intros [L2 H1]].
  cbn. repeat constructor.
Qed.

Lemma main_loop_no_table (fs : FileSystem) (degree : nat) (ns : list nat) :
  forall t : ConvergenceTable,
    Forall (fun ev => writes_table ev = false)
           (trace (main_loop fs degree t ns)).
Proof.
  induction ns as [| n ns IH]; intros t; cbn [main_loop]; [constructor |].
  apply no_table_bind; [| intros t1; apply IH].
  unfold main_iteration.
  apply no_table_bind; [apply run_no_table |].
  intros [[[[ncell ndofs] L2] H1] p']. constructor.
Qed.

(** X21: a [main] that returns ends by writing one and the same table to
    the screen and to [error.tex], and has written no table before; the
    table has the columns "cells", "dofs", "L2" and "H1", in this order,
    with five values each. *)
Theorem main_writes_table (fs : FileSystem) tr (code : Z) :
  main fs = (tr, inr code) ->
  exists (t : ConvergenceTable) (tr1 : list Event),
    tr = (tr1 ++ [Endl; WriteText t; WriteTex "error.tex" t])%list
    /\ Forall (fun ev => writes_table ev = false) tr1
    /\ column_sizes t
       = [("cells", 5%nat); ("dofs", 5%nat); ("L2", 5%nat); ("H1", 5%nat)].
Proof.
  unfold main. intros Hmain.
  apply bind_inr in Hmain as (tr1 & t & tr2 & Hloop & Hrest & ->).
  cbn in Hrest. injection Hrest as <- _.
  destruct (main_loop_inv fs 1 (seq 0 5) (mkConvergenceTable [] []) t tr1
              0%nat) as (_ & Hc & _);
    [left; split; reflexivity | exact Hloop |].
  destruct Hc as [[Hseq _] | Hc]; [discriminate Hseq |].
  eexists _, tr1. split; [reflexivity |]. split.
  - pose proof (main_loop_no_table fs 1 (seq 0 5) (mkConvergenceTable [] []))
      as Hnt.
    rewrite Hloop in Hnt. exact Hnt.
  - exact Hc.
Qed.


End RunFacts.

(** *** The program on the stand-in library, at every level *)
Section RunRuns.
Import Laplace.
Local Open Scope R_scope.

Lemma toy_run_completes_at (n : nat) :
  exists tr out, @run toy toy_fs (LaplaceProblem_new 1 n) = (tr, inr out).
Proof.
  set (p1 := mkLaplaceProblem n (triangulation toy_problem) 1
               (dof_handler toy_problem) (sparsity_pattern toy_problem)
               (system_matrix toy_problem) (solution toy_problem)
               (system_rhs toy_problem)).
  assert (Hgrid : @make_grid_and_dofs toy toy_fs (LaplaceProblem_new 1 n)
                  = (trace (@make_grid_and_dofs toy toy_fs
                              (LaplaceProblem_new 1 n)),
                     inr p1)) by reflexivity.
  destruct (@assemble_system_completes toy toy_fs (LaplaceProblem_new 1 n)
              p1 _ ∅ Hgrid) as (p2 & Hasm & _);
    [repeat constructor | reflexivity |].
  unfold run.
  eapply bind_completes; [exact Hgrid |].
  eapply bind_completes; [exact Hasm |].
  eapply bind_completes; [apply toy_solve |].
  eapply bind_completes; [apply output_results_exact |].
  eapply bind_completes;
    [apply compute_error_exact; apply toy_error_quadrature |].
  do 2 eexists. reflexivity.
Qed.

Lemma toy_main_loop_completes (ns : list nat) :
  forall t : ConvergenceTable,
    exists tr t', @main_loop toy toy_fs 1 t ns = (tr, inr t').
Proof.
  induction ns as [| n ns IH]; intros t; cbn [main_loop].
  - do 2 eexists. reflexivity.
  - destruct (toy_run_completes_at n)
      as (tr & [[[[ncell ndofs] L2] H1] p'] & Hrun).
    eapply bind_completes; [| apply IH].
    unfold main_iteration. rewrite Hrun. reflexivity.
Qed.

Lemma toy_main_completes :
  exists tr, @main toy toy_fs = (tr, inr 0%Z).
Proof.
  destruct (toy_main_loop_completes (seq 0 5) (mkConvergenceTable [] []))
    as (tr & t & Hloop).
  unfold main. rewrite Hloop. eexists. reflexivity.
Qed.

Lemma compute_error_H1_witness :
  Forall (fun q => 0 <= JxW q) (@error_quadrature toy toy_problem)
  /\ exists L2_error : R,
      @compute_error toy toy_problem
      = ([], inr (L2_error, @discrete_H1_error toy toy_problem)).
Proof.
  split; [apply toy_error_quadrature |].
  apply (@compute_error_H1 toy toy_problem); apply toy_error_quadrature.
Defined.

Lemma compute_error_nonnegative_witness :
  0 <= @discrete_L2_error toy toy_problem
  /\ 0 <= @discrete_H1_error toy toy_problem.
Proof.
  apply (@compute_error_nonnegative toy toy_problem []).
  apply compute_error_exact; apply toy_error_quadrature.
Defined.


Lemma run_prints_counts_witness :
  exists tr ncell ndofs L2_error H1_error p' rest,
    @run toy toy_fs (LaplaceProblem_new 1 0)
    = (tr, inr (ncell, ndofs, L2_error, H1_error, p'))
    /\ tr = ([Cout "   Number of active cells: "; CoutUnsigned ncell; Endl;
              Cout "   Total number of cells: ";
              CoutUnsigned (n_cells (triangulation p')); Endl;
              Cout "   Number of degrees of freedom: ";
              CoutUnsigned ndofs; Endl] ++ rest)%list.
Proof.
  destruct (toy_run_completes_at 0)
    as (tr & [[[[ncell ndofs] L2] H1] p'] & Hrun).
  destruct (@run_prints_counts toy toy_fs (LaplaceProblem_new 1 0) tr
              ncell ndofs L2 H1 p' Hrun) as (rest & Htr).
  exists tr, ncell, ndofs, L2, H1, p', rest.
  split; [exact Hrun | exact Htr].
Defined.

Lemma main_writes_five_files_witness :
  exists tr,
    @main toy toy_fs = (tr, inr 0%Z)
    /\ vtk_names tr
       = ["solution-00.vtk"; "solution-01.vtk"; "solution-02.vtk";
          "solution-03.vtk"; "solution-04.vtk"].
Proof.
  destruct toy_main_completes as (tr & Hmain).
  exists tr. split; [exact Hmain |].
  destruct (@main_writes_five_files toy toy_fs tr 0 Hmain) as (Hv & _).
  exact Hv.
Defined.

Lemma main_writes_table_witness :
  exists tr t tr1,
    @main toy toy_fs = (tr, inr 0%Z)
    /\ tr = (tr1 ++ [Endl; WriteText t; WriteTex "error.tex" t])%list.
Proof.
  destruct toy_main_completes as (tr & Hmain).
  destruct (@main_writes_table toy toy_fs tr 0 Hmain)
    as (t & tr1 & Htr & _).
  exists tr, t, tr1. split; [exact Hmain | exact Htr].
Defined.


End RunRuns.
